(** * Wordle: the game logic of [game.js] and the session driver of [main.js]

    A shallow embedding of the two scripts and the properties of the
    specification that concern them.

    Conventions of the embedding.
    - A JavaScript string is a [string]; the words, keys and messages of the
      program are ASCII, and [toLowerCase]/[toUpperCase] are the ASCII case
      maps (code units outside ASCII are left as they are).
    - A JavaScript array is a list.  Where the program can leave an element
      unset, the element type is an [option]: in the result of [checkGuess]
      and in the rows of the grid [None] is an empty slot (it reads as
      [undefined]); in the letter arrays of [checkGuess] [None] is the
      [null] the code stores.  A read out of range is [None] of the lookup
      [l !! i], that is [undefined].
    - The counters of the session are natural numbers: they start at 0 and
      are changed by [++] and by a guarded [--] only.
    - DOM calls are recorded, in order, in a trace of requests; whether the
      page has the cell is outside the scripts. *)

From stdpp Require Import base list strings.
From Stdlib Require Import Ascii Lia.
From Stdlib Require DecimalString.

(** ** JavaScript helpers *)

(** [a[i] = v] on an array with empty slots: in range it overwrites, out of
    range the array grows and the slots in between stay empty. *)
Definition array_set {A} (a : list (option A)) (i : nat) (v : A) : list (option A) :=
  if decide (i < length a) then <[i := Some v]> a
  else a ++ replicate (i - length a) None ++ [Some v].

(** [Array.prototype.includes] *)
Fixpoint includes `{EqDecision A} (l : list A) (x : A) : bool :=
  match l with
  | [] => false
  | y :: l' => if decide (y = x) then true else includes l' x
  end.

(** [Array.prototype.indexOf]; [None] stands for the result -1. *)
Fixpoint indexOf `{EqDecision A} (l : list A) (x : A) : option nat :=
  match l with
  | [] => None
  | y :: l' => if decide (y = x) then Some 0 else S <$> indexOf l' x
  end.

(** [for (let i = 0; i < n; i++) body] on an explicit loop state. *)
Definition for_upto {S} (n : nat) (body : nat -> S -> S) (s : S) : S :=
  foldl (fun s i => body i s) s (seq 0 n).

Definition is_upper (c : ascii) : bool :=
  (65 <=? nat_of_ascii c) && (nat_of_ascii c <=? 90).

Definition is_lower (c : ascii) : bool :=
  (97 <=? nat_of_ascii c) && (nat_of_ascii c <=? 122).

Definition lower_char (c : ascii) : ascii :=
  if is_upper c then ascii_of_nat (nat_of_ascii c + 32) else c.

Definition upper_char (c : ascii) : ascii :=
  if is_lower c then ascii_of_nat (nat_of_ascii c - 32) else c.

Fixpoint map_string (f : ascii -> ascii) (s : string) : string :=
  match s with
  | EmptyString => EmptyString
  | String c s' => String (f c) (map_string f s')
  end.

(** [String.prototype.toLowerCase] and [toUpperCase], as they act on the
    letters A-Z and a-z; every other code unit is left as it is.  On a
    string of ASCII characters these are the maps of the language; on
    other strings the language's maps do more (U+017F goes up to S,
    U+212A goes down to k). *)
Definition toLowerCase (s : string) : string := map_string lower_char s.
Definition toUpperCase (s : string) : string := map_string upper_char s.

(** A string of ASCII characters only. *)
Definition is_ascii (s : string) : bool :=
  forallb (fun c => nat_of_ascii c <? 128) (String.list_ascii_of_string s).

(** [s.split('')]: the code units of [s] *)
Definition split (s : string) : list ascii := String.list_ascii_of_string s.

(** ** game.js *)

Record GameConfig := { rows : nat; cols : nat; wordLength : nat }.

Definition gameConfig : GameConfig := {| rows := 6; cols := 5; wordLength := 5 |}.

Definition fallbackWords : list string :=
  [ "apple"; "grape"; "vital"; "spice"; "quick";
    "proxy"; "flame"; "serve"; "crane"; "blaze" ].

Inductive LetterStatus := correct | misplaced | wrong.

Global Instance LetterStatus_eq_dec : EqDecision LetterStatus.
Proof. solve_decision. Defined.

(** The three local arrays of [checkGuess]. *)
Record Letters := {
  result : list (option LetterStatus);
  targetLetters : list (option ascii);
  guessLetters : list (option ascii)
}.

(** Body of the first loop.  [===] on two array reads is equality of the
    lookups: [undefined], [null] and a letter are three different values.
    When the test holds inside the loop, [i] is in range of both letter
    arrays, so the two [null] writes are in-range updates. *)
Definition firstPassStep (i : nat) (st : Letters) : Letters :=
  if decide (guessLetters st !! i = targetLetters st !! i) then
    {| result := array_set (result st) i correct;
       targetLetters := <[i := None]> (targetLetters st);
       guessLetters := <[i := None]> (guessLetters st) |}
  else st.

(** Body of the second loop.  A letter is truthy, [null] is not.  [indexOf]
    finds an index whenever [includes] holds. *)
Definition secondPassStep (i : nat) (st : Letters) : Letters :=
  match guessLetters st !! i with
  | Some (Some c) =>
      if includes (targetLetters st) (Some c) then
        {| result := array_set (result st) i misplaced;
           targetLetters :=
             match indexOf (targetLetters st) (Some c) with
             | Some index => <[index := None]> (targetLetters st)
             | None => targetLetters st
             end;
           guessLetters := guessLetters st |}
      else st
  | _ => st
  end.

Definition checkGuess_start (gs ts : list ascii) : Letters :=
  {| result := replicate (wordLength gameConfig) (Some wrong);
     targetLetters := Some <$> ts;
     guessLetters := Some <$> gs |}.

Definition checkGuess_init (guess target : string) : Letters :=
  checkGuess_start (split guess) (split target).

(** The bound [guessLetters.length] of both loops is the length of the
    guess: the loops only overwrite elements in range. *)
Definition checkGuess_loops (guess target : string) : Letters :=
  let n := length (split guess) in
  for_upto n secondPassStep (for_upto n firstPassStep (checkGuess_init guess target)).

Definition checkGuess (guess target : string) : list (option LetterStatus) :=
  result (checkGuess_loops guess target).

(** The environment of one call of [getRandomWord]: what the remote call
    does, and the number [Math.random()] returns.  A parsed body is a JSON
    value; the value of a number plays no role. *)
Local Unset Elimination Schemes.
Inductive json :=
  | JNull
  | JBool (b : bool)
  | JNumber (n : Z)
  | JString (s : string)
  | JArray (items : list json)
  | JObject (fields : list (string * json)).
Local Set Elimination Schemes.

(** The remote call is one that settles: the scripts set no timeout, and
    a request that stays pending keeps [getRandomWord] pending. *)
Inductive RemoteCall :=
  | FetchRejects                 (* network error: [fetch] rejects *)
  | JsonRejects                  (* the body is not JSON: [response.json()] rejects *)
  | JsonResolves (data : json).  (* the body parses to [data] *)

(** A number in [0, 1), as the fraction [num / den]. *)
Record UnitInterval := { num : nat; den : nat; num_lt_den : (num <? den) = true }.

Record Env := { remote : RemoteCall; random : UnitInterval }.

(** [Math.floor(x * n)] *)
Definition floor_times (x : UnitInterval) (n : nat) : nat := (num x * n) / den x.

(** The [try] block of [getRandomWord]: [Some w] when it returns [w],
    [None] when control leaves it, by an exception that the [catch] absorbs
    or by a false test.  [toLowerCase] exists on strings only: on any other
    first element the call throws a TypeError. *)
Definition getRandomWord_try (r : RemoteCall) : option string :=
  match r with
  | FetchRejects => None
  | JsonRejects => None
  | JsonResolves data =>
      match data with
      | JArray items =>                              (* Array.isArray(data) *)
          if bool_decide (0 < length items) then     (* data.length > 0 *)
            match items !! 0 with
            | Some (JString s) => Some (toLowerCase s)
            | _ => None                              (* TypeError, caught *)
            end
          else None
      | _ => None
      end
  end.

(** The result is a JavaScript value: [None] is [undefined], which an array
    read out of range would give. *)
Definition getRandomWord (env : Env) : option string :=
  match getRandomWord_try (remote env) with
  | Some w => Some w
  | None => fallbackWords !! floor_times (random env) (length fallbackWords)
  end.

Definition isWordValid (word : string) : bool :=
  includes fallbackWords (toLowerCase word).

(** [targetWord] holds what [getRandomWord] returned: a string, or [None]
    for [undefined]. *)
Record GameState := {
  targetWord : option string;
  currentRow : nat;
  currentCol : nat;
  grid : list (list (option string))
}.

(** ** The page: session state, the keydown listener, the DOM requests *)

Inductive Request :=
  | UpdateCell (row col : nat) (letter : string)
  | Shake (row col : nat)
  | RevealCell (row col : nat) (status : LetterStatus)
  | Message (text : string).

Record World := {
  gameState : GameState;
  listening : bool;           (* [handleKeydown] is registered for keydown *)
  requests : list Request     (* DOM requests so far, oldest first *)
}.

(** A call returns a value or throws (a TypeError: the scripts throw nothing
    else); both leave a world behind. *)
Inductive Outcome (A : Type) :=
  | Return (a : A) (w : World)
  | Throw (w : World).
Arguments Return {A} a w.
Arguments Throw {A} w.

Definition M (A : Type) : Type := World -> Outcome A.

Global Instance M_ret : MRet M := fun A a w => Return a w.
Global Instance M_bind : MBind M := fun A B k m w =>
  match m w with
  | Return a w' => k a w'
  | Throw w' => Throw w'
  end.

Definition world_of {A} (o : Outcome A) : World :=
  match o with Return _ w => w | Throw w => w end.

Definition throwTypeError {A} : M A := fun w => Throw w.
Definition getState : M GameState := fun w => Return (gameState w) w.
Definition putState (g : GameState) : M unit := fun w =>
  Return tt {| gameState := g; listening := listening w; requests := requests w |}.
Definition request (r : Request) : M unit := fun w =>
  Return tt {| gameState := gameState w; listening := listening w;
               requests := requests w ++ [r] |}.
Definition removeKeydownListener : M unit := fun w =>
  Return tt {| gameState := gameState w; listening := false; requests := requests w |}.

Definition set_targetWord (t : option string) (g : GameState) : GameState :=
  {| targetWord := t; currentRow := currentRow g; currentCol := currentCol g; grid := grid g |}.
Definition set_currentRow (r : nat) (g : GameState) : GameState :=
  {| targetWord := targetWord g; currentRow := r; currentCol := currentCol g; grid := grid g |}.
Definition set_currentCol (c : nat) (g : GameState) : GameState :=
  {| targetWord := targetWord g; currentRow := currentRow g; currentCol := c; grid := grid g |}.
Definition set_grid (gr : list (list (option string))) (g : GameState) : GameState :=
  {| targetWord := targetWord g; currentRow := currentRow g; currentCol := currentCol g; grid := gr |}.

(** [for (...) body] and [forEach] with a body that can throw. *)
Fixpoint for_each {A} (l : list A) (body : A -> M unit) : M unit :=
  match l with
  | [] => mret tt
  | x :: l' => body x ;; for_each l' body
  end.

(** [grid[row]]: a TypeError follows when a property of [undefined] is
    read or written. *)
Definition gridRow (row : nat) : M (list (option string)) :=
  g ← getState;
  match grid g !! row with
  | Some r => mret r
  | None => throwTypeError
  end.

(** [grid[row][col] = s].  The rows are distinct arrays
    ([initialiseGame] builds one per row), so the write changes one row. *)
Definition setSlot (row col : nat) (s : string) : M unit :=
  r ← gridRow row;
  g ← getState;
  putState (set_grid (<[row := array_set r col s]> (grid g)) g).

(** [row.join('')]: an empty slot joins as the empty string. *)
Definition join (row : list (option string)) : string :=
  foldr (fun slot acc => default "" slot +:+ acc) "" row.

(** [!row[c]]: the read is falsy when it is [undefined] (out of range or
    an empty slot) or the empty string. *)
Definition falsy (slot : option (option string)) : bool :=
  match slot with
  | Some (Some s) => bool_decide (s = "")
  | _ => true
  end.

(** [initialiseGame]; the [console.log] is left out. *)
Definition initialiseGame (env : Env) : M unit :=
  g ← getState;
  putState (set_targetWord (getRandomWord env) g) ;;
  g ← getState;
  putState (set_currentRow 0 g) ;;
  g ← getState;
  putState (set_currentCol 0 g) ;;
  g ← getState;
  putState (set_grid (replicate (rows gameConfig) (replicate (cols gameConfig) (Some ""))) g).

(** ** main.js *)

(** [/[a-zA-Z]/.test(letter)]: some code unit of [letter] is a letter. *)
Definition test_a_zA_Z (letter : string) : bool :=
  existsb (fun c => is_lower c || is_upper c) (split letter).

Definition isLetter (letter : string) : bool :=
  bool_decide (String.length letter = 1) && test_a_zA_Z letter.

(** [updateCell]: one request to the page. *)
Definition updateCell (row col : nat) (letter : string) : M unit :=
  request (UpdateCell row col letter).

Definition addLetter (letter : string) : M unit :=
  g ← getState;
  let row := currentRow g in
  let col := currentCol g in
  if bool_decide (cols gameConfig ≤ col) || bool_decide (rows gameConfig ≤ row) then
    mret tt
  else
    setSlot row col (toLowerCase letter) ;;
    updateCell row col letter ;;
    g' ← getState;
    putState (set_currentCol (currentCol g' + 1) g').

Definition removeLetter : M unit :=
  g ← getState;
  let row := currentRow g in
  if bool_decide (currentCol g = 0) then mret tt
  else
    putState (set_currentCol (currentCol g - 1) g) ;;
    g' ← getState;
    let col := currentCol g' in
    setSlot row col "" ;;
    updateCell row col "".

(** [showMessage]: the alert, whatever the delay of its timer. *)
Definition showMessage (message : string) : M unit :=
  request (Message message).

Definition revealAttemptResult (row : nat) (results : list (option LetterStatus)) : M unit :=
  for_each (imap (fun col status => (col, status)) results)
    (fun '(col, status) =>
       match status with
       | Some st => request (RevealCell row col st)
       | None => mret tt          (* [forEach] skips an empty slot *)
       end).

Definition shakeRow (row : nat) : M unit :=
  for_each (seq 0 (cols gameConfig)) (fun c => request (Shake row c)).

Definition shakeMissingCells (row : nat) : M unit :=
  for_each (seq 0 (cols gameConfig))
    (fun c =>
       r ← gridRow row;
       if falsy (r !! c) then request (Shake row c) else mret tt).

(** [checkGuess(guess, target)] as [submitGuess] calls it: on [undefined]
    the [split] of the first line throws. *)
Definition checkGuess_call (guess : string) (target : option string)
  : M (list (option LetterStatus)) :=
  match target with
  | Some t => mret (checkGuess guess t)
  | None => throwTypeError
  end.

Definition win_message : string := "You got it! 🎉".
Definition invalid_message : string := "Not a valid word".
Definition lost_message (target : string) : string :=
  "Out of attempts! The word was " +:+ toUpperCase target.

(** The template literal of the last message reads
    [targetWord.toUpperCase()], a TypeError on [undefined]. *)
Definition outOfAttempts (target : option string) : M unit :=
  match target with
  | Some t => showMessage (lost_message t)
  | None => throwTypeError
  end.

Definition submitGuess : M unit :=
  g ← getState;
  let row := currentRow g in
  if bool_decide (currentCol g < cols gameConfig) then
    shakeMissingCells row
  else
    r ← gridRow row;
    let guess := join r in
    if negb (isWordValid guess) then
      shakeRow row ;;
      showMessage invalid_message
    else
      g1 ← getState;
      results ← checkGuess_call guess (targetWord g1);
      revealAttemptResult row results ;;
      g2 ← getState;
      if bool_decide (Some guess = targetWord g2) then
        showMessage win_message ;;
        removeKeydownListener
      else
        g3 ← getState;
        putState (set_currentRow (currentRow g3 + 1) g3) ;;
        g4 ← getState;
        putState (set_currentCol 0 g4) ;;
        g5 ← getState;
        if bool_decide (rows gameConfig ≤ currentRow g5) then
          outOfAttempts (targetWord g5) ;;
          removeKeydownListener
        else mret tt.

Definition handleKeydown (key : string) : M unit :=
  if isLetter key then addLetter key
  else if bool_decide (key = "Backspace") then removeLetter
  else if bool_decide (key = "Enter") then submitGuess
  else mret tt.

(** A keydown event: the handler runs if it is registered; what it throws
    is lost with its promise.  Handlers run one at a time: the awaits of a
    handler are resolved before the next event is dispatched. *)
Definition keydown (w : World) (key : string) : World :=
  if listening w then world_of (handleKeydown key w) else w.

Definition keydowns (w : World) (keys : list string) : World :=
  foldl keydown w keys.

(** The state of [game.js] when the script has loaded. *)
Definition loaded : World :=
  {| gameState := {| targetWord := Some ""; currentRow := 0; currentCol := 0; grid := [] |};
     listening := false;
     requests := [] |}.

(** The DOMContentLoaded handler on a page that has the grid element:
    [initialiseGame], then the keydown listener is registered. *)
Definition startGame (env : Env) : World :=
  let w := world_of (initialiseGame env loaded) in
  {| gameState := gameState w; listening := true; requests := requests w |}.

(** ** Measures the properties are stated with *)

(** Number of elements of [l] on which [p] holds. *)
Fixpoint count_if {A} (p : A -> bool) (l : list A) : nat :=
  match l with
  | [] => 0
  | x :: l' => (if p x then 1 else 0) + count_if p l'
  end.

Definition is_correct (r : option LetterStatus) : bool :=
  bool_decide (r = Some correct).

Definition is_marked (r : option LetterStatus) : bool :=
  bool_decide (r = Some correct) || bool_decide (r = Some misplaced).

(** Number of positions [i] of the word with [guess[i] == target[i]]. *)
Definition samePositions (guess target : string) : nat :=
  count_if (fun i => bool_decide (split guess !! i = split target !! i))
           (seq 0 (wordLength gameConfig)).

(** Number of positions that hold the letter [c] in [gs] and a [correct] or
    [misplaced] status in [res]. *)
Definition markedPositions (c : ascii) (gs : list ascii) (res : list (option LetterStatus)) : nat :=
  count_if (fun p => bool_decide (p.1 = c) && is_marked p.2) (zip gs res).

(** Number of occurrences of [x] in [l]. *)
Definition occurrences `{EqDecision A} (x : A) (l : list A) : nat :=
  count_if (fun y => bool_decide (y = x)) l.

(** The invariant of both loops of [checkGuess] on the letters [gs] of the
    guess and [ts] of the target: no status is lost, a letter of the guess
    is either consumed or still in place, a [correct] status sits exactly
    where the guess letter was consumed and the two words agree, and every
    mark of a letter is paid by a consumed occurrence in the target. *)
Record CheckInv (gs ts : list ascii) (st : Letters) : Prop := {
  inv_len_g : length (guessLetters st) = length gs;
  inv_len_r : length (result st) = wordLength gameConfig;
  inv_status : forall j, j < wordLength gameConfig -> exists s, result st !! j = Some (Some s);
  inv_guess : forall j c, guessLetters st !! j = Some (Some c) -> gs !! j = Some c;
  inv_target : forall j c, targetLetters st !! j = Some (Some c) -> ts !! j = Some c;
  inv_consumed : forall j, j < length gs ->
    (result st !! j = Some (Some correct) <-> guessLetters st !! j = Some None);
  inv_agree : forall j, result st !! j = Some (Some correct) ->
    j < length gs /\ gs !! j = ts !! j;
  inv_count : forall c,
    markedPositions c gs (result st) + occurrences (Some c) (targetLetters st)
    <= occurrences c ts
}.

(** Worlds that differ from [w] as the scripts change it. *)
Definition add_requests (rs : list Request) (w : World) : World :=
  {| gameState := gameState w; listening := listening w; requests := requests w ++ rs |}.

Definition stop_listening (w : World) : World :=
  {| gameState := gameState w; listening := false; requests := requests w |}.

Definition with_state (g : GameState) (w : World) : World :=
  {| gameState := g; listening := listening w; requests := requests w |}.

(** The requests of [shakeMissingCells], [shakeRow] and
    [revealAttemptResult]. *)
Definition missingCellShakes (row : nat) (r : list (option string)) : list Request :=
  c ← seq 0 (cols gameConfig); if falsy (r !! c) then [Shake row c] else [].

Definition rowShakes (row : nat) : list Request :=
  c ← seq 0 (cols gameConfig); [Shake row c].

Definition revealRequests (row : nat) (results : list (option LetterStatus)) : list Request :=
  p ← imap (fun col status => (col, status)) results;
  match p.2 with
  | Some st => [RevealCell row p.1 st]
  | None => []
  end.

(** The session after an accepted guess that is not the target: next row,
    cursor at the start. *)
Definition next_attempt (g : GameState) : GameState :=
  {| targetWord := targetWord g; currentRow := currentRow g + 1;
     currentCol := 0; grid := grid g |}.

(** A slot of the grid holds the empty string or one lowercase letter. *)
Definition slot_ok (slot : option string) : Prop :=
  slot = Some "" \/ exists c, is_lower c = true /\ slot = Some (String c EmptyString).

(** The invariant of the session state: the grid has [rows] rows of [cols]
    slots, every slot is empty or a lowercase letter, and the cursor and
    the attempt counter stay within the grid. *)
Record SessionInv (g : GameState) : Prop := {
  inv_rows : length (grid g) = rows gameConfig;
  inv_cols : Forall (fun r => length r = cols gameConfig) (grid g);
  inv_slots : Forall (Forall slot_ok) (grid g);
  inv_cursor : currentCol g <= cols gameConfig;
  inv_attempt : currentRow g <= rows gameConfig
}.

(** ** Sample environments and key sequences *)

(** The remote call answers [["house"]]. *)
Definition remote_house : Env :=
  {| remote := JsonResolves (JArray [JString "house"]);
     random := {| num := 0; den := 1; num_lt_den := eq_refl |} |}.

(** The remote call fails and [Math.random()] returns 0.8: the fallback
    word is "crane". *)
Definition offline_crane : Env :=
  {| remote := FetchRejects;
     random := {| num := 8; den := 10; num_lt_den := eq_refl |} |}.

(** The keys that type [word], one per letter. *)
Definition typed (word : string) : list string :=
  (fun c => String c EmptyString) <$> split word.

(** The exact bookkeeping of the loops of [checkGuess]: the statuses
    beyond the end of the guess stay [wrong], and for every letter the
    marked positions of the guess and the occurrences left in
    [targetLetters] add up to the occurrences in the target. *)
Record CheckExact (gs ts : list ascii) (st : Letters) : Prop := {
  exact_tail : forall j, length gs <= j -> j < wordLength gameConfig ->
    result st !! j = Some (Some wrong);
  exact_count : forall c,
    markedPositions c gs (result st) + occurrences (Some c) (targetLetters st)
    = occurrences c ts
}.

(** ** Vocabulary of the reachable sessions *)

(** A slot holds one lowercase letter. *)
Definition letter_slot (slot : option string) : Prop :=
  exists c, is_lower c = true /\ slot = Some (String c EmptyString).

(** The cell [(i, j)] lies before the cursor, in reading order. *)
Definition filled (g : GameState) (i j : nat) : Prop :=
  i < currentRow g \/ (i = currentRow g /\ j < currentCol g).

(** A request names a cell inside the grid. *)
Definition request_in_grid (r : Request) : Prop :=
  match r with
  | UpdateCell row col _ | Shake row col | RevealCell row col _ =>
      row < rows gameConfig /\ col < cols gameConfig
  | Message _ => True
  end.

(** What holds of every world a session reaches: the session invariant, a
    target word that is a string, letters before the cursor and empty slots
    from the cursor on, a free row while the listener is registered, and
    requests that stay inside the grid. *)
Record WorldInv (w : World) : Prop := {
  wi_session : SessionInv (gameState w);
  wi_target : exists t, targetWord (gameState w) = Some t;
  wi_filled : forall i r j s,
    grid (gameState w) !! i = Some r -> r !! j = Some s ->
    (filled (gameState w) i j -> letter_slot s) /\
    (~ filled (gameState w) i j -> s = Some "");
  wi_alive : listening w = true -> currentRow (gameState w) < rows gameConfig;
  wi_requests : Forall request_in_grid (requests w)
}.

(** The changes a keydown event can make to a world of a session: one
    constructor per path through [handleKeydown] that returns. *)
Inductive KeyStep (w : World) : World -> Prop :=
  | step_none : KeyStep w w
  | step_letter letter r :
      isLetter letter = true ->
      currentCol (gameState w) < cols gameConfig ->
      currentRow (gameState w) < rows gameConfig ->
      grid (gameState w) !! currentRow (gameState w) = Some r ->
      KeyStep w
        (with_state
           {| targetWord := targetWord (gameState w);
              currentRow := currentRow (gameState w);
              currentCol := currentCol (gameState w) + 1;
              grid := <[currentRow (gameState w) :=
                         array_set r (currentCol (gameState w)) (toLowerCase letter)]>
                        (grid (gameState w)) |}
           (add_requests
              [UpdateCell (currentRow (gameState w)) (currentCol (gameState w)) letter] w))
  | step_backspace r :
      currentCol (gameState w) <> 0 ->
      grid (gameState w) !! currentRow (gameState w) = Some r ->
      KeyStep w
        (add_requests
           [UpdateCell (currentRow (gameState w)) (currentCol (gameState w) - 1) ""]
           (with_state
              {| targetWord := targetWord (gameState w);
                 currentRow := currentRow (gameState w);
                 currentCol := currentCol (gameState w) - 1;
                 grid := <[currentRow (gameState w) :=
                            array_set r (currentCol (gameState w) - 1) ""]>
                           (grid (gameState w)) |}
              w))
  | step_incomplete r :
      currentCol (gameState w) < cols gameConfig ->
      grid (gameState w) !! currentRow (gameState w) = Some r ->
      KeyStep w (add_requests (missingCellShakes (currentRow (gameState w)) r) w)
  | step_invalid r :
      cols gameConfig <= currentCol (gameState w) ->
      grid (gameState w) !! currentRow (gameState w) = Some r ->
      isWordValid (join r) = false ->
      KeyStep w
        (add_requests (rowShakes (currentRow (gameState w)) ++ [Message invalid_message]) w)
  | step_win r :
      cols gameConfig <= currentCol (gameState w) ->
      grid (gameState w) !! currentRow (gameState w) = Some r ->
      isWordValid (join r) = true ->
      targetWord (gameState w) = Some (join r) ->
      KeyStep w
        (stop_listening
           (add_requests
              (revealRequests (currentRow (gameState w)) (checkGuess (join r) (join r))
               ++ [Message win_message]) w))
  | step_next r t :
      cols gameConfig <= currentCol (gameState w) ->
      grid (gameState w) !! currentRow (gameState w) = Some r ->
      isWordValid (join r) = true ->
      targetWord (gameState w) = Some t ->
      join r <> t ->
      currentRow (gameState w) + 1 < rows gameConfig ->
      KeyStep w
        (with_state (next_attempt (gameState w))
           (add_requests
              (revealRequests (currentRow (gameState w)) (checkGuess (join r) t)) w))
  | step_lost r t :
      cols gameConfig <= currentCol (gameState w) ->
      grid (gameState w) !! currentRow (gameState w) = Some r ->
      isWordValid (join r) = true ->
      targetWord (gameState w) = Some t ->
      join r <> t ->
      rows gameConfig <= currentRow (gameState w) + 1 ->
      KeyStep w
        (stop_listening
           (with_state (next_attempt (gameState w))
              (add_requests
                 (revealRequests (currentRow (gameState w)) (checkGuess (join r) t)
                  ++ [Message (lost_message t)]) w))).

(** ** The page: the cells of the grid *)

(** An element of the page, with what the scripts read and write of it. *)
Record Element := {
  elem_id : string;
  classList : list string;
  textContent : string
}.

(** [classList.add] and [classList.remove]: a class list holds a class at
    most once. *)
Definition add_class (x : string) (l : list string) : list string :=
  if includes l x then l else l ++ [x].

Definition remove_class (x : string) (l : list string) : list string :=
  filter (fun y => y <> x) l.

(** A number in a template literal: its decimal digits. *)
Definition numberToString (n : nat) : string :=
  DecimalString.NilEmpty.string_of_uint (Nat.to_uint n).

(** The id [`${r}-${c}`] of a cell. *)
Definition cellId (r c : nat) : string :=
  numberToString r +:+ "-" +:+ numberToString c.

(** [setupGrid]: the container is emptied, then one cell per row and column
    is appended, row by row. *)
Definition setupGrid (container : list Element) : list Element :=
  for_upto (rows gameConfig)
    (fun r children =>
       for_upto (cols gameConfig)
         (fun c children =>
            children ++ [{| elem_id := cellId r c; classList := add_class "letter" [];
                            textContent := "" |}])
         children)
    [].

(** [document.getElementById] on the cells of the grid: the index of the
    first cell with that id. *)
Definition getElementById (id : string) (page : list Element) : option nat :=
  indexOf (elem_id <$> page) id.

(** [const cell = document.getElementById(...); if (!cell) return; ...] *)
Definition withCell (row col : nat) (f : Element -> Element) (page : list Element)
  : list Element :=
  match getElementById (cellId row col) page with
  | Some k => alter f k page
  | None => page
  end.

Definition set_classList (l : list string) (e : Element) : Element :=
  {| elem_id := elem_id e; classList := l; textContent := textContent e |}.

(** What [updateCell] does to its cell, up to the registration of the
    [animationend] listener. *)
Definition updateCell_cell (letter : string) (e : Element) : Element :=
  let classes := remove_class "animate__bounceIn" (classList e) in
  {| elem_id := elem_id e;
     classList :=
       if bool_decide (letter = "") then classes
       else add_class "animate__bounceIn" (add_class "animate__animated" classes);
     textContent := letter |}.

(** The status strings, which are the class names of the stylesheet. *)
Definition statusName (st : LetterStatus) : string :=
  match st with
  | correct => "correct"
  | misplaced => "misplaced"
  | wrong => "wrong"
  end.

(** What [revealAttemptResult] does to one cell. *)
Definition reveal_cell (st : LetterStatus) (e : Element) : Element :=
  set_classList
    (add_class (statusName st)
       (remove_class "wrong" (remove_class "misplaced"
          (remove_class "correct" (classList e))))) e.

(** What [shakeRow] and [shakeMissingCells] do to one cell. *)
Definition shake_cell (e : Element) : Element :=
  set_classList (add_class "shake" (classList e)) e.

(** The [animationend] listeners of [updateCell] and of the shakes. *)
Definition bounce_ended (e : Element) : Element :=
  set_classList
    (remove_class "animate__bounceIn" (remove_class "animate__animated" (classList e))) e.

Definition shake_ended (e : Element) : Element :=
  set_classList (remove_class "shake" (classList e)) e.

(** The page after a request of a handler. *)
Definition applyRequest (page : list Element) (q : Request) : list Element :=
  match q with
  | UpdateCell row col letter => withCell row col (updateCell_cell letter) page
  | Shake row col => withCell row col shake_cell page
  | RevealCell row col st => withCell row col (reveal_cell st) page
  | Message _ => page
  end.

(** The requests a keydown event adds to those of [w]. *)
Definition new_requests (w w' : World) : list Request :=
  drop (length (requests w)) (requests w').

(** The worlds of a session together with the cells the page shows: the
    page starts as [setupGrid] leaves it, a keydown event applies the
    requests of its handler, and between two events any cell can see one
    of its animations end. *)
Inductive Shown : World -> list Element -> Prop :=
  | shown_start env container :
      Shown (startGame env) (setupGrid container)
  | shown_keydown w page key :
      Shown w page ->
      Shown (keydown w key) (foldl applyRequest page (new_requests w (keydown w key)))
  | shown_bounce_ended w page k :
      Shown w page -> Shown w (alter bounce_ended k page)
  | shown_shake_ended w page k :
      Shown w page -> Shown w (alter shake_ended k page).

(** The status classes of a cell. *)
Definition statusClasses (e : Element) : list string :=
  filter (fun y => y ∈ ["correct"; "misplaced"; "wrong"]) (classList e).

(** The statuses of row [i] are on the page: the row was submitted and
    accepted. *)
Definition revealed (w : World) (i : nat) : Prop :=
  i < currentRow (gameState w) \/ (i = currentRow (gameState w) /\ listening w = false).

(** What the requests of a handler do to the cell at index [k], whose
    position the id of a request names. *)
Definition cellStep (k : nat) (e : Element) (q : Request) : Element :=
  match q with
  | UpdateCell row col letter =>
      if decide (row * cols gameConfig + col = k) then updateCell_cell letter e else e
  | Shake row col =>
      if decide (row * cols gameConfig + col = k) then shake_cell e else e
  | RevealCell row col st =>
      if decide (row * cols gameConfig + col = k) then reveal_cell st e else e
  | Message _ => e
  end.

(** The page shows the session: the cells are those [setupGrid] built, the
    text of a cell is, up to case, the slot of the grid at its position,
    and a cell bears the status of its letter once its row is revealed,
    and no status class before. *)
Record PageInv (w : World) (page : list Element) : Prop := {
  pi_ids : elem_id <$> page = elem_id <$> setupGrid [];
  pi_text : forall i j e,
    i < rows gameConfig -> j < cols gameConfig ->
    page !! (i * cols gameConfig + j) = Some e ->
    grid (gameState w) !! i ≫= (.!! j) = Some (Some (toLowerCase (textContent e)));
  pi_status : forall i j e,
    i < rows gameConfig -> j < cols gameConfig ->
    page !! (i * cols gameConfig + j) = Some e ->
    (revealed w i ->
       exists r t st,
         grid (gameState w) !! i = Some r /\
         targetWord (gameState w) = Some t /\
         checkGuess (join r) t !! j = Some (Some st) /\
         statusClasses e = [statusName st]) /\
    (~ revealed w i -> statusClasses e = [])
}.

(** A session and its page, key after key. *)
Fixpoint play (w : World) (page : list Element) (keys : list string)
  : World * list Element :=
  match keys with
  | [] => (w, page)
  | key :: keys' =>
      play (keydown w key) (foldl applyRequest page (new_requests w (keydown w key))) keys'
  end.

(** ** dark-mode-toggle.js *)

(** What the toggle reads and writes: whether the body has the class
    [light-mode], and the text of the button. *)
Record Theme := { lightMode : bool; toggleText : string }.

(** The click handler: [classList.toggle] flips the class, then the icon is
    chosen by the class. *)
Definition toggleClicked (p : Theme) : Theme :=
  let light := negb (lightMode p) in
  {| lightMode := light; toggleText := if light then "🌙" else "🌞" |}.

(** ** [checkGuess] on the heap *)

(** The values the arrays of [checkGuess] hold: a string, [null], or
    nothing (an empty slot, which reads as [undefined]). *)
Inductive Value :=
  | VEmpty
  | VNull
  | VString (s : string).

Global Instance Value_eq_dec : EqDecision Value.
Proof. solve_decision. Defined.

(** The heap of arrays.  A reference is an index into the heap; a new
    array gets the next free reference, whatever the heap holds already. *)
Definition alloc (a : list Value) (h : list (list Value)) : nat * list (list Value) :=
  (length h, h ++ [a]).

Definition deref (ref : nat) (h : list (list Value)) : list Value :=
  default [] (h !! ref).

(** [a[i]]: [undefined] out of range. *)
Definition array_read (a : list Value) (i : nat) : Value :=
  default VEmpty (a !! i).

(** [a[i] = v]: the array grows when [i] is out of range. *)
Definition array_write (a : list Value) (i : nat) (v : Value) : list Value :=
  if decide (i < length a) then <[i := v]> a
  else a ++ replicate (i - length a) VEmpty ++ [v].

Definition heap_write (ref i : nat) (v : Value) (h : list (list Value))
  : list (list Value) :=
  <[ref := array_write (deref ref h) i v]> h.

Definition letterValue (c : ascii) : Value := VString (String c EmptyString).

(** A value in a condition: a non-empty string is truthy, [null] and
    [undefined] are not. *)
Definition truthy (v : Value) : bool :=
  match v with
  | VString s => negb (bool_decide (s = ""))
  | _ => false
  end.

(** Body of the first loop, on the arrays behind the three references. *)
Definition firstPassHeap (result targetLetters guessLetters i : nat)
    (h : list (list Value)) : list (list Value) :=
  if decide (array_read (deref guessLetters h) i = array_read (deref targetLetters h) i)
  then
    let h1 := heap_write result i (VString "correct") h in
    let h2 := heap_write targetLetters i VNull h1 in
    heap_write guessLetters i VNull h2
  else h.

(** Body of the second loop.  [indexOf] cannot miss when [includes] holds;
    a write at index -1 would set no element. *)
Definition secondPassHeap (result targetLetters guessLetters i : nat)
    (h : list (list Value)) : list (list Value) :=
  let g := array_read (deref guessLetters h) i in
  if truthy g && includes (deref targetLetters h) g then
    let h1 := heap_write result i (VString "misplaced") h in
    match indexOf (deref targetLetters h1) g with
    | Some index => heap_write targetLetters index VNull h1
    | None => h1
    end
  else h.

(** [checkGuess] as it runs: [Array(...).fill] and the two [split]s make
    three new arrays, the loops read and write through their references,
    and the reference of [result] is returned. *)
Definition checkGuessHeap (guess target : string) (h : list (list Value))
  : nat * list (list Value) :=
  let '(result, h1) := alloc (replicate (wordLength gameConfig) (VString "wrong")) h in
  let '(targetLetters, h2) := alloc (letterValue <$> split target) h1 in
  let '(guessLetters, h3) := alloc (letterValue <$> split guess) h2 in
  let h4 := for_upto (length (deref guessLetters h3))
              (firstPassHeap result targetLetters guessLetters) h3 in
  let h5 := for_upto (length (deref guessLetters h4))
              (secondPassHeap result targetLetters guessLetters) h4 in
  (result, h5).

(** The arrays of the heap that stand for the lists of [Letters]. *)
Definition statusValue (r : option LetterStatus) : Value :=
  match r with
  | Some st => VString (statusName st)
  | None => VEmpty
  end.

Definition slotValue (l : option ascii) : Value :=
  match l with
  | Some c => letterValue c
  | None => VNull
  end.

Definition onHeap (h : list (list Value)) (st : Letters) : list (list Value) :=
  h ++ [statusValue <$> result st; slotValue <$> targetLetters st;
        slotValue <$> guessLetters st].

(** ** Examples *)

Example checkGuess_crane_crane :
  checkGuess "crane" "crane" = Some <$> [correct; correct; correct; correct; correct].
Proof. reflexivity. Qed.

Example checkGuess_speed_abcde :
  checkGuess "speed" "abcde" = Some <$> [wrong; wrong; misplaced; wrong; misplaced].
Proof. reflexivity. Qed.

Example checkGuess_eerie_arena :
  checkGuess "eerie" "arena" = Some <$> [misplaced; wrong; misplaced; wrong; wrong].
Proof. reflexivity. Qed.

(** A guess longer than [wordLength] makes the result grow, with an empty
    slot where no status was written. *)
Example checkGuess_long_guess :
  checkGuess "abcdefg" "xxxxxxg" =
  [Some wrong; Some wrong; Some wrong; Some wrong; Some wrong; None; Some correct].
Proof. reflexivity. Qed.

Example isWordValid_CRANE : isWordValid "CRANE" = true.
Proof. reflexivity. Qed.

Example isWordValid_house : isWordValid "house" = false.
Proof. reflexivity. Qed.

(** ** Lists, counting and loops *)

Lemma count_if_insert {A} (p : A -> bool) (l : list A) i x y :
  l !! i = Some x ->
  count_if p (<[i := y]> l) + (if p x then 1 else 0)
  = count_if p l + (if p y then 1 else 0).
Proof.
  revert i. induction l as [|a l IH]; intros [|i] Hi; simplify_eq/=.
  - lia.
  - specialize (IH _ Hi). lia.
Qed.

Lemma count_if_pointwise {A B} (p : A -> bool) (q : B -> bool) (l : list A) (k : list B) :
  length l = length k ->
  (forall j x y, l !! j = Some x -> k !! j = Some y -> p x = q y) ->
  count_if p l = count_if q k.
Proof.
  revert k. induction l as [|a l IH]; intros [|b k] Hlen Hpt; simplify_eq/=; [done|].
  rewrite (Hpt 0 a b eq_refl eq_refl). f_equal.
  apply IH; [done|]. intros j x y Hx Hy. exact (Hpt (S j) x y Hx Hy).
Qed.

Lemma includes_indexOf `{EqDecision A} (l : list A) (x : A) :
  includes l x = true -> exists i, indexOf l x = Some i.
Proof.
  induction l as [|y l IH]; simpl; [done|].
  destruct (decide (y = x)); [eauto|].
  intros H. destruct (IH H) as [i ->]. eauto.
Qed.

Lemma indexOf_lookup `{EqDecision A} (l : list A) (x : A) i :
  indexOf l x = Some i -> l !! i = Some x.
Proof.
  revert i. induction l as [|y l IH]; intros i; simpl; [done|].
  destruct (decide (y = x)) as [->|]; [by intros [= <-]|].
  destruct (indexOf l x) as [k|] eqn:E; simpl; [|done].
  intros [= <-]. by apply IH.
Qed.

Lemma includes_In `{EqDecision A} (l : list A) (x : A) :
  includes l x = true <-> x ∈ l.
Proof.
  induction l as [|y l IH]; simpl.
  - split; [done|]. by intros ?%elem_of_nil.
  - rewrite elem_of_cons. destruct (decide (y = x)) as [->|Hne]; [tauto|].
    rewrite IH. split; [tauto|]. intros [?|?]; [congruence|done].
Qed.

Lemma for_upto_S {S} n (body : nat -> S -> S) s :
  for_upto (Datatypes.S n) body s = body n (for_upto n body s).
Proof. unfold for_upto. by rewrite seq_S, foldl_app. Qed.

(** The rule of the counting loop: a property indexed by the number of
    iterations done. *)
Lemma for_upto_ind {S} (P : nat -> S -> Prop) n (body : nat -> S -> S) s :
  P 0 s ->
  (forall k t, k < n -> P k t -> P (Datatypes.S k) (body k t)) ->
  P n (for_upto n body s).
Proof.
  intros H0 Hstep. induction n as [|n IH]; [done|].
  rewrite for_upto_S. apply Hstep; [lia|]. apply IH.
  intros k t Hk. apply Hstep. lia.
Qed.

Lemma array_set_in_range {A} (a : list (option A)) i v :
  i < length a -> array_set a i v = <[i := Some v]> a.
Proof. intros H. unfold array_set. by rewrite decide_True. Qed.

Lemma split_length s : length (split s) = String.length s.
Proof. unfold split. induction s; simpl; congruence. Qed.

(** ** The loops of [checkGuess] *)

Lemma markedPositions_insert c gs res i g y :
  gs !! i = Some g ->
  i < length res ->
  markedPositions c gs (<[i := y]> res)
  <= markedPositions c gs res + (if bool_decide (g = c) then 1 else 0).
Proof.
  intros Hg Hi. unfold markedPositions.
  destruct (lookup_lt_is_Some_2 res i Hi) as [r Hr].
  assert (Hz : zip gs res !! i = Some (g, r)).
  { rewrite lookup_zip_with, Hg, Hr. done. }
  assert (Hins : zip gs (<[i := y]> res) = <[i := (g, y)]> (zip gs res)).
  { rewrite (insert_zip_with pair gs res i g y). by rewrite (list_insert_id gs i g Hg). }
  rewrite Hins.
  pose proof (count_if_insert (fun p => bool_decide (p.1 = c) && is_marked p.2)
                _ i _ (g, y) Hz) as Hc.
  simpl in Hc.
  destruct (bool_decide (g = c)); simpl in *;
    repeat match goal with |- context [if ?b then _ else _] => destruct b end;
    repeat match goal with H : context [if ?b then _ else _] |- _ => destruct b end; lia.
Qed.

Lemma occurrences_consume (tl : list (option ascii)) i g c :
  tl !! i = Some (Some g) ->
  occurrences (Some c) (<[i := None]> tl) + (if bool_decide (g = c) then 1 else 0)
  = occurrences (Some c) tl.
Proof.
  intros Hi. unfold occurrences.
  pose proof (count_if_insert (fun y => bool_decide (y = Some c)) tl i _ None Hi) as Hc.
  simpl in Hc. rewrite (bool_decide_ext (Some g = Some c) (g = c)) in Hc by naive_solver.
  lia.
Qed.

Lemma occurrences_fmap_Some c (ts : list ascii) :
  occurrences (Some c) (Some <$> ts) = occurrences c ts.
Proof.
  unfold occurrences. induction ts as [|t ts IH]; [done|].
  rewrite fmap_cons. cbn [count_if]. rewrite IH.
  by rewrite (bool_decide_ext (Some t = Some c) (t = c)) by naive_solver.
Qed.

Lemma markedPositions_fresh c gs n :
  markedPositions c gs (replicate n (Some wrong)) = 0.
Proof.
  unfold markedPositions. revert n.
  induction gs as [|g gs IH]; intros [|n]; simpl; try done.
  rewrite andb_false_r. apply IH.
Qed.

Ltac insert_cases i j :=
  destruct (decide (i = j)) as [->|];
  [ rewrite ?list_lookup_insert_eq by lia
  | rewrite ?list_lookup_insert_ne by done ].

Section CheckGuessLoops.
Variables gs ts : list ascii.
Hypothesis Hlen : length gs <= wordLength gameConfig.

Lemma start_inv : CheckInv gs ts (checkGuess_start gs ts).
Proof.
  constructor; cbn [checkGuess_start result targetLetters guessLetters].
  - by rewrite length_fmap.
  - by rewrite length_replicate.
  - intros j Hj. exists wrong. by apply lookup_replicate_2.
  - intros j c. rewrite list_lookup_fmap. destruct (gs !! j); naive_solver.
  - intros j c. rewrite list_lookup_fmap. destruct (ts !! j); naive_solver.
  - intros j Hj. rewrite list_lookup_fmap.
    split.
    + intros [? _]%lookup_replicate. done.
    + destruct (gs !! j); naive_solver.
  - intros j [? _]%lookup_replicate. done.
  - intros c. rewrite markedPositions_fresh, occurrences_fmap_Some. done.
Qed.

Lemma firstPassStep_inv i st :
  i < length gs -> CheckInv gs ts st -> CheckInv gs ts (firstPassStep i st).
Proof.
  intros Hi Hinv. pose proof Hinv as [Hg Hr Hs Hgl Htl Hcons Hagr Hcnt].
  unfold firstPassStep. case_decide as Heq; [|done].
  destruct (lookup_lt_is_Some_2 (guessLetters st) i) as [x Hx]; [lia|].
  rewrite Hx in Heq. symmetry in Heq.
  pose proof (lookup_lt_Some _ _ _ Heq) as Hit.
  rewrite array_set_in_range by lia.
  destruct x as [c|].
  - pose proof (Hgl i c Hx) as Hgi. pose proof (Htl i c Heq) as Hti.
    constructor; simpl.
    + by rewrite length_insert.
    + by rewrite length_insert.
    + intros j Hj. insert_cases i j; eauto.
    + intros j c'. insert_cases i j; [done|]. apply Hgl.
    + intros j c'. insert_cases i j; [done|]. apply Htl.
    + intros j Hj. insert_cases i j; [done|]. by apply Hcons.
    + intros j. insert_cases i j; [|apply Hagr].
      intros _. split; [done|congruence].
    + intros c'.
      pose proof (markedPositions_insert c' gs (result st) i c (Some correct) Hgi) as Hm.
      pose proof (occurrences_consume (targetLetters st) i c c' Heq) as Ho.
      specialize (Hcnt c'). lia.
  - assert (Hri : result st !! i = Some (Some correct)) by (by apply Hcons).
    rewrite !list_insert_id by done. by destruct st.
Qed.

Lemma secondPassStep_inv i st :
  i < length gs -> CheckInv gs ts st -> CheckInv gs ts (secondPassStep i st).
Proof.
  intros Hi Hinv. pose proof Hinv as [Hg Hr Hs Hgl Htl Hcons Hagr Hcnt].
  unfold secondPassStep.
  destruct (guessLetters st !! i) as [[c|]|] eqn:Hx; [|done|done].
  destruct (includes (targetLetters st) (Some c)) eqn:Hinc; [|done].
  destruct (includes_indexOf _ _ Hinc) as [index Hidx]. rewrite Hidx.
  pose proof (indexOf_lookup _ _ _ Hidx) as Ht.
  pose proof (lookup_lt_Some _ _ _ Ht) as Hit.
  pose proof (Hgl i c Hx) as Hgi.
  rewrite array_set_in_range by lia.
  constructor; simpl.
  - done.
  - by rewrite length_insert.
  - intros j Hj. insert_cases i j; eauto.
  - done.
  - intros j c'. insert_cases index j; [done|]. apply Htl.
  - intros j Hj. insert_cases i j; [|by apply Hcons].
    rewrite Hx. split; intros; simplify_eq.
  - intros j. insert_cases i j; [|apply Hagr]. intros; simplify_eq.
  - intros c'.
    pose proof (markedPositions_insert c' gs (result st) i c (Some misplaced) Hgi) as Hm.
    pose proof (occurrences_consume (targetLetters st) index c c' Ht) as Ho.
    specialize (Hcnt c'). lia.
Qed.

(** A [correct] status is never overwritten. *)
Lemma firstPassStep_keeps_correct i j st :
  i < length gs -> CheckInv gs ts st ->
  result st !! j = Some (Some correct) ->
  result (firstPassStep i st) !! j = Some (Some correct).
Proof.
  intros Hi [Hg Hr _ _ _ _ _ _] Hj. unfold firstPassStep.
  case_decide; [|done]. simpl. rewrite array_set_in_range by lia.
  by insert_cases i j.
Qed.

Lemma secondPassStep_keeps_correct i j st :
  i < length gs -> CheckInv gs ts st ->
  result st !! j = Some (Some correct) ->
  result (secondPassStep i st) !! j = Some (Some correct).
Proof.
  intros Hi [Hg Hr _ _ _ Hcons _ _] Hj. unfold secondPassStep.
  destruct (guessLetters st !! i) as [[c|]|] eqn:Hx; [|done|done].
  destruct (includes _ _); [|done]. simpl. rewrite array_set_in_range by lia.
  insert_cases i j; [|done].
  apply Hcons in Hj; [|done]. congruence.
Qed.

(** After [k] rounds of the first loop the positions below [k] where the
    words agree are [correct] and the letters from [k] on are untouched. *)
Lemma firstPass_spec :
  let st := for_upto (length gs) firstPassStep (checkGuess_start gs ts) in
  CheckInv gs ts st /\
  (forall j, j < length gs -> gs !! j = ts !! j -> result st !! j = Some (Some correct)).
Proof.
  cut (let st := for_upto (length gs) firstPassStep (checkGuess_start gs ts) in
       CheckInv gs ts st /\
       (forall j, length gs <= j ->
          guessLetters st !! j = (Some <$> gs) !! j /\
          targetLetters st !! j = (Some <$> ts) !! j) /\
       (forall j, j < length gs -> gs !! j = ts !! j ->
          result st !! j = Some (Some correct)));
    [by intros (Hinv & _ & Hdone)|].
  apply (for_upto_ind (fun k st =>
    CheckInv gs ts st /\
    (forall j, k <= j ->
       guessLetters st !! j = (Some <$> gs) !! j /\
       targetLetters st !! j = (Some <$> ts) !! j) /\
    (forall j, j < k -> gs !! j = ts !! j -> result st !! j = Some (Some correct)))).
  - split; [apply start_inv|]. split; [done|]. intros j Hj. lia.
  - intros k st Hk (Hinv & Hrest & Hdone).
    split; [by apply firstPassStep_inv|]. split.
    + intros j Hj. unfold firstPassStep. case_decide; [|apply Hrest; lia].
      simpl. rewrite !list_lookup_insert_ne by lia. apply Hrest. lia.
    + intros j Hj Hsame. destruct (decide (j = k)) as [->|].
      * destruct (Hrest k) as [Hgk Htk]; [lia|].
        pose proof Hinv as [Hg Hr _ _ _ _ _ _].
        unfold firstPassStep. rewrite decide_True.
        -- simpl. rewrite array_set_in_range by lia.
           by rewrite list_lookup_insert_eq by lia.
        -- rewrite Hgk, Htk, !list_lookup_fmap. by rewrite Hsame.
      * apply firstPassStep_keeps_correct; [done..|]. apply Hdone; [lia|done].
Qed.

Lemma loops_spec :
  let st := for_upto (length gs) secondPassStep
              (for_upto (length gs) firstPassStep (checkGuess_start gs ts)) in
  CheckInv gs ts st /\
  (forall j, j < length gs -> gs !! j = ts !! j -> result st !! j = Some (Some correct)).
Proof.
  destruct firstPass_spec as (Hinv & Hdone).
  apply (for_upto_ind (fun _ st => CheckInv gs ts st /\
    (forall j, j < length gs -> gs !! j = ts !! j -> result st !! j = Some (Some correct)))).
  - done.
  - intros k st Hk [Hi Hc]. split; [by apply secondPassStep_inv|].
    intros j Hj Hsame. apply secondPassStep_keeps_correct; auto.
Qed.
End CheckGuessLoops.

Lemma all_statuses (l : list (option LetterStatus)) :
  (forall j, j < length l -> exists s, l !! j = Some (Some s)) ->
  exists statuses, l = Some <$> statuses /\ length statuses = length l.
Proof.
  induction l as [|x l IH]; intros H.
  - by exists [].
  - destruct (H 0) as [s Hs]; [simpl; lia|]. simpl in Hs. simplify_eq.
    destruct IH as (ss & -> & Hss).
    { intros j Hj. apply (H (S j)). simpl. lia. }
    exists (s :: ss). split; [done|]. simpl. by rewrite Hss, length_fmap.
Qed.

Lemma checkGuess_inv (guess target : string) :
  String.length guess <= wordLength gameConfig ->
  CheckInv (split guess) (split target) (checkGuess_loops guess target) /\
  (forall j, j < String.length guess -> split guess !! j = split target !! j ->
     checkGuess guess target !! j = Some (Some correct)).
Proof.
  intros Hlen. rewrite <- split_length in *.
  exact (loops_spec (split guess) (split target) Hlen).
Qed.

(** ** The guess evaluator *)

(** C1: for 5-letter words [checkGuess] returns exactly one status per
    position (five entries, each of them [correct], [misplaced] or [wrong],
    no empty slot), and the number of [correct] entries is the number of
    positions where guess and target hold the same letter.  Lowercase is
    not needed. *)
Theorem checkGuess_one_status_per_position (guess target : string) :
  String.length guess = 5 ->
  String.length target = 5 ->
  (exists statuses : list LetterStatus,
     checkGuess guess target = Some <$> statuses /\ length statuses = 5) /\
  count_if is_correct (checkGuess guess target) = samePositions guess target.
Proof.
  intros Hg Ht.
  destruct (checkGuess_inv guess target) as [Hinv Hcorr]; [simpl; lia|].
  pose proof Hinv as [_ Hr Hs _ _ _ Hagr _].
  fold (checkGuess guess target) in Hr, Hs, Hagr.
  split.
  - destruct (all_statuses (checkGuess guess target)) as (ss & Hss & Hlen).
    { intros j Hj. apply Hs. lia. }
    exists ss. split; [done|]. by rewrite Hlen, Hr.
  - unfold samePositions. apply count_if_pointwise.
    { by rewrite Hr, length_seq. }
    intros j x y Hx [-> Hj]%lookup_seq. simpl in *.
    unfold is_correct. apply bool_decide_ext. split.
    + intros ->. by apply Hagr.
    + intros Hsame. rewrite Hcorr in Hx by (done || lia). by simplify_eq.
Qed.

Lemma checkGuess_one_status_per_position_witness :
  String.length "spice" = 5 /\ String.length "serve" = 5 /\
  (exists statuses : list LetterStatus,
     checkGuess "spice" "serve" = Some <$> statuses /\ length statuses = 5) /\
  count_if is_correct (checkGuess "spice" "serve") = samePositions "spice" "serve".
Proof.
  split; [reflexivity|]. split; [reflexivity|].
  apply (checkGuess_one_status_per_position "spice" "serve"); reflexivity.
Defined.

(** C2: for 5-letter words and every letter [c], the positions of the guess
    that hold [c] and are marked [correct] or [misplaced] are at most as
    many as the occurrences of [c] in the target; for "eerie" against
    "arena" exactly one position holding 'e' is marked. *)
Theorem checkGuess_marks_bounded_by_target :
  (forall (guess target : string) (c : ascii),
     String.length guess = 5 ->
     String.length target = 5 ->
     markedPositions c (split guess) (checkGuess guess target)
     <= occurrences c (split target)) /\
  markedPositions "e" (split "eerie") (checkGuess "eerie" "arena") = 1.
Proof.
  split; [|reflexivity].
  intros guess target c Hg Ht.
  destruct (checkGuess_inv guess target) as [[_ _ _ _ _ _ _ Hcnt] _]; [simpl; lia|].
  specialize (Hcnt c). fold (checkGuess guess target) in Hcnt. lia.
Qed.

Lemma checkGuess_marks_bounded_by_target_witness :
  String.length "serve" = 5 /\ String.length "eerie" = 5 /\
  markedPositions "e" (split "serve") (checkGuess "serve" "eerie")
  <= occurrences "e"%char (split "eerie").
Proof.
  split; [reflexivity|]. split; [reflexivity|].
  apply (proj1 checkGuess_marks_bounded_by_target "serve" "eerie" "e"%char); reflexivity.
Defined.

(** C3, as the claim states it, fails: the statuses of "grape" against
    "crane" are not [wrong, correct, wrong, misplaced, correct]. *)
Lemma checkGuess_grape_crane_not_as_claimed :
  checkGuess "grape" "crane" <> Some <$> [wrong; correct; wrong; misplaced; correct].
Proof. vm_compute. discriminate. Qed.

(** C3, amended: "grape" and "crane" agree on 'r', 'a' and 'e' in place, so
    [checkGuess] returns [wrong, correct, correct, wrong, correct]. *)
Theorem checkGuess_grape_crane :
  checkGuess "grape" "crane" = Some <$> [wrong; correct; correct; wrong; correct].
Proof. reflexivity. Qed.

(** *** The run of [checkGuess] on the heap *)

Lemma deref_onHeap (h : list (list Value)) (l : list (list Value)) k :
  deref (length h + k) (h ++ l) = default [] (l !! k).
Proof. unfold deref. rewrite lookup_app_r by lia. do 2 f_equal. lia. Qed.

Lemma heap_write_onHeap (h l : list (list Value)) k i v :
  heap_write (length h + k) i v (h ++ l)
  = h ++ <[k := array_write (default [] (l !! k)) i v]> l.
Proof. unfold heap_write. by rewrite deref_onHeap, insert_app_r. Qed.

Lemma array_write_status (res : list (option LetterStatus)) i st :
  array_write (statusValue <$> res) i (VString (statusName st))
  = statusValue <$> array_set res i st.
Proof.
  unfold array_write, array_set. rewrite length_fmap. case_decide.
  - by rewrite list_fmap_insert.
  - by rewrite !fmap_app, fmap_replicate.
Qed.

Lemma array_write_null (l : list (option ascii)) i :
  i < length l ->
  array_write (slotValue <$> l) i VNull = slotValue <$> <[i := None]> l.
Proof.
  intros Hi. unfold array_write. rewrite length_fmap, decide_True by done.
  by rewrite list_fmap_insert.
Qed.

Lemma slotValue_inj (x y : option ascii) : slotValue x = slotValue y -> x = y.
Proof. destruct x, y; simpl; unfold letterValue; congruence. Qed.

Lemma array_read_slot (l : list (option ascii)) i x :
  l !! i = Some x -> array_read (slotValue <$> l) i = slotValue x.
Proof. intros H. unfold array_read. by rewrite list_lookup_fmap, H. Qed.

(** [===] on two reads of the heap is the equality of the two lookups. *)
Lemma array_read_eq (gl tl : list (option ascii)) i :
  i < length gl ->
  array_read (slotValue <$> gl) i = array_read (slotValue <$> tl) i <->
  gl !! i = tl !! i.
Proof.
  intros Hi. destruct (lookup_lt_is_Some_2 gl i Hi) as [x Hx].
  rewrite (array_read_slot gl i x Hx), Hx. unfold array_read.
  rewrite list_lookup_fmap. destruct (tl !! i) as [y|]; simpl.
  - split; [by intros ->%slotValue_inj|congruence].
  - split; [by destruct x|done].
Qed.

Lemma includes_slotValue (l : list (option ascii)) x :
  includes (slotValue <$> l) (slotValue x) = includes l x.
Proof.
  induction l as [|y l IH]; [done|]. rewrite fmap_cons. simpl.
  destruct (decide (y = x)) as [->|Hne].
  - by rewrite decide_True.
  - rewrite decide_False; [done|]. by intros ?%slotValue_inj.
Qed.

Lemma indexOf_slotValue (l : list (option ascii)) x :
  indexOf (slotValue <$> l) (slotValue x) = indexOf l x.
Proof.
  induction l as [|y l IH]; [done|]. rewrite fmap_cons. simpl.
  destruct (decide (y = x)) as [->|Hne].
  - by rewrite decide_True.
  - rewrite decide_False; [by rewrite IH|]. by intros ?%slotValue_inj.
Qed.

Section OnHeap.
Variable h : list (list Value).

Lemma firstPassHeap_onHeap i st :
  i < length (guessLetters st) ->
  firstPassHeap (length h) (length h + 1) (length h + 2) i (onHeap h st)
  = onHeap h (firstPassStep i st).
Proof.
  intros Hi. rewrite <- (Nat.add_0_r (length h)) at 1. unfold firstPassHeap, firstPassStep, onHeap.
  rewrite !deref_onHeap. cbn [lookup list_lookup default from_option id].
  destruct (decide (guessLetters st !! i = targetLetters st !! i)) as [Heq|Hne].
  - rewrite decide_True by (by apply array_read_eq).
    assert (Hit : i < length (targetLetters st)).
    { destruct (lookup_lt_is_Some_2 _ _ Hi) as [x Hx]. rewrite Hx in Heq.
      symmetry in Heq. by apply lookup_lt_Some in Heq. }
    rewrite !heap_write_onHeap. cbn [lookup list_lookup default from_option id insert list_insert].
    change "correct" with (statusName correct).
    by rewrite array_write_status, !array_write_null.
  - rewrite decide_False; [done|]. by intros ?%array_read_eq.
Qed.

Lemma secondPassHeap_onHeap i st :
  i < length (guessLetters st) ->
  secondPassHeap (length h) (length h + 1) (length h + 2) i (onHeap h st)
  = onHeap h (secondPassStep i st).
Proof.
  intros Hi. rewrite <- (Nat.add_0_r (length h)) at 1. unfold secondPassHeap, secondPassStep, onHeap.
  rewrite !deref_onHeap. cbn [lookup list_lookup default from_option id].
  destruct (lookup_lt_is_Some_2 _ _ Hi) as [x Hx].
  rewrite (array_read_slot _ i x Hx), Hx.
  destruct x as [c|]; [|done].
  change (truthy (slotValue (Some c))) with true. cbn [andb].
  rewrite includes_slotValue.
  destruct (includes (targetLetters st) (Some c)) eqn:Hinc; [|done].
  rewrite heap_write_onHeap. cbn [lookup list_lookup default from_option id insert list_insert].
  rewrite deref_onHeap. cbn [lookup list_lookup default from_option id].
  rewrite indexOf_slotValue.
  change "misplaced" with (statusName misplaced). rewrite array_write_status.
  cbn [result targetLetters guessLetters].
  destruct (indexOf (targetLetters st) (Some c)) as [index|] eqn:Hidx; [|done].
  rewrite heap_write_onHeap. cbn [lookup list_lookup default from_option id insert list_insert].
  rewrite array_write_null; [done|].
  by apply indexOf_lookup, lookup_lt_Some in Hidx.
Qed.

Lemma firstPassStep_length i st :
  length (guessLetters (firstPassStep i st)) = length (guessLetters st).
Proof. unfold firstPassStep. case_decide; [|done]. simpl. by rewrite length_insert. Qed.

Lemma secondPassStep_length i st :
  length (guessLetters (secondPassStep i st)) = length (guessLetters st).
Proof. unfold secondPassStep. by repeat case_match. Qed.

(** A loop on the heap goes step by step with the loop on the lists. *)
Lemma for_upto_onHeap (bodyH : nat -> list (list Value) -> list (list Value))
    (body : nat -> Letters -> Letters) n k st :
  (forall i t, length (guessLetters (body i t)) = length (guessLetters t)) ->
  (forall i t, i < length (guessLetters t) -> bodyH i (onHeap h t) = onHeap h (body i t)) ->
  k <= n ->
  n = length (guessLetters st) ->
  for_upto k bodyH (onHeap h st) = onHeap h (for_upto k body st) /\
  length (guessLetters (for_upto k body st)) = n.
Proof.
  intros Hlen Hstep Hk Hn. induction k as [|k IH]; [done|].
  destruct IH as [IH1 IH2]; [lia|]. rewrite !for_upto_S, IH1.
  split; [apply Hstep; lia|by rewrite Hlen].
Qed.

Lemma letterValue_slots (l : list ascii) :
  letterValue <$> l = slotValue <$> (Some <$> l).
Proof. induction l as [|c l IH]; [done|]. by rewrite !fmap_cons, IH. Qed.

Lemma checkGuessHeap_onHeap (guess target : string) :
  checkGuessHeap guess target h = (length h, onHeap h (checkGuess_loops guess target)).
Proof.
  unfold checkGuessHeap, alloc. rewrite !length_app. cbn [length].
  replace (length h + 1 + 1) with (length h + 2) by lia.
  assert (Hstart : ((h ++ [replicate (wordLength gameConfig) (VString "wrong")])
                    ++ [letterValue <$> split target]) ++ [letterValue <$> split guess]
                   = onHeap h (checkGuess_init guess target)).
  { unfold onHeap, checkGuess_init, checkGuess_start. cbn [result targetLetters guessLetters].
    rewrite <- !app_assoc, !letterValue_slots, fmap_replicate. done. }
  rewrite Hstart. f_equal.
  unfold checkGuess_loops.
  set (n := length (split guess)).
  assert (Hn : n = length (guessLetters (checkGuess_init guess target))).
  { unfold checkGuess_init, checkGuess_start. cbn [guessLetters]. by rewrite length_fmap. }
  assert (Hd : forall t, length (deref (length h + 2) (onHeap h t)) = length (guessLetters t)).
  { intros t. unfold onHeap. rewrite deref_onHeap. cbn [lookup list_lookup default from_option id].
    by rewrite length_fmap. }
  rewrite Hd, <- Hn.
  destruct (for_upto_onHeap (firstPassHeap (length h) (length h + 1) (length h + 2))
              firstPassStep n n (checkGuess_init guess target)) as [H1 Hl1];
    [apply firstPassStep_length|apply firstPassHeap_onHeap|done|done|].
  rewrite H1, Hd, Hl1.
  destruct (for_upto_onHeap (secondPassHeap (length h) (length h + 1) (length h + 2))
              secondPassStep n n (for_upto n firstPassStep (checkGuess_init guess target)))
    as [H2 _];
    [apply secondPassStep_length|apply secondPassHeap_onHeap|done|done|].
  exact H2.
Qed.
End OnHeap.

(** C8: [checkGuess] is deterministic and has no hidden state.  Run on any
    heap, whatever arrays earlier calls left there, the code builds its
    three arrays anew and works on them only (the one name it reads from
    outside is [gameConfig.wordLength], which the program never assigns):
    the array it returns holds the statuses of the guess against the
    target and nothing else decides it, so two runs on the same guess and
    target, on any two heaps or one after the other, return arrays with
    the same content; the array is a new one, and no array that was there
    before is read into the result or changed. *)
Theorem checkGuess_no_hidden_state (guess target : string) (h1 h2 : list (list Value)) :
  let run1 := checkGuessHeap guess target h1 in
  let run2 := checkGuessHeap guess target h2 in
  let again := checkGuessHeap guess target run1.2 in
  deref run1.1 run1.2 = deref run2.1 run2.2 /\
  deref again.1 again.2 = deref run1.1 run1.2 /\
  deref run1.1 run1.2 = statusValue <$> checkGuess guess target /\
  run1.1 = length h1 /\
  (forall ref, ref < length h1 -> run1.2 !! ref = h1 !! ref) /\
  (forall ref, ref <= length h1 -> again.2 !! ref = run1.2 !! ref).
Proof.
  assert (Hres : forall h,
            deref (checkGuessHeap guess target h).1 (checkGuessHeap guess target h).2
            = statusValue <$> checkGuess guess target).
  { intros h. rewrite checkGuessHeap_onHeap. cbn [fst snd]. unfold onHeap.
    replace (length h) with (length h + 0) at 1 by lia. by rewrite deref_onHeap. }
  assert (Hframe : forall h ref, ref < length h ->
            (checkGuessHeap guess target h).2 !! ref = h !! ref).
  { intros h ref Href. rewrite checkGuessHeap_onHeap. cbn [snd]. unfold onHeap.
    by rewrite lookup_app_l. }
  cbv zeta. rewrite !Hres. split; [done|]. split; [done|]. split; [done|].
  split; [by rewrite checkGuessHeap_onHeap|]. split; [apply Hframe|].
  intros ref Href. apply Hframe.
  rewrite (checkGuessHeap_onHeap h1). cbn [snd]. unfold onHeap. rewrite length_app.
  simpl. lia.
Qed.

(** ** The word source *)

Lemma floor_times_lt (x : UnitInterval) (n : nat) : 0 < n -> floor_times x n < n.
Proof.
  intros Hn. destruct x as [a b Hab]. unfold floor_times. simpl.
  apply Nat.ltb_lt in Hab.
  apply Nat.Div0.div_lt_upper_bound. nia.
Qed.

Lemma fallbackWords_five_letters :
  Forall (fun w => String.length w = wordLength gameConfig /\ w <> "") fallbackWords.
Proof. repeat constructor; done. Qed.

Lemma fallback_choice (x : UnitInterval) :
  exists w, fallbackWords !! floor_times x (length fallbackWords) = Some w /\
            w ∈ fallbackWords.
Proof.
  destruct (lookup_lt_is_Some_2 fallbackWords (floor_times x (length fallbackWords)))
    as [w Hw].
  { apply floor_times_lt. simpl. lia. }
  exists w. split; [done|]. by eapply list_elem_of_lookup_2.
Qed.

(** C4: [getRandomWord] at the inputs where it breaks its contract.  The
    function is documented to resolve to a 5-letter word and is required to
    return a non-empty word of the configured length always.  When the
    remote call answers with an array whose first element is a string, the
    code returns that string in lowercase and checks its length nowhere:
    on the answer [[""]] it returns the empty word, on [["Banana"]] the
    six-letter word banana; neither has length 5, neither is in the
    fallback list. *)
Lemma getRandomWord_returns_remote_word_unchecked :
  let answer data :=
    {| remote := JsonResolves data;
       random := {| num := 0; den := 1; num_lt_den := eq_refl |} |} in
  (getRandomWord (answer (JArray [JString ""])) = Some "" /\
   String.length "" <> wordLength gameConfig /\
   "" ∉ fallbackWords) /\
  (getRandomWord (answer (JArray [JString "Banana"])) = Some "banana" /\
   String.length "banana" <> wordLength gameConfig /\
   "banana" ∉ fallbackWords).
Proof.
  split; (split; [reflexivity|]; split; [done|]);
    intros H; repeat (apply elem_of_cons in H as [H|H]; [done|]);
    by apply elem_of_nil in H.
Qed.

(** X24: a failure of the remote call never leaves [getRandomWord]: when the
    request is rejected, the body is not JSON, or the JSON is not an array
    that starts with a string (so also the empty array), the function
    returns a word of the fallback list, non-empty and of the configured
    length 5. *)
Theorem getRandomWord_absorbs_remote_failure (env : Env) :
  (remote env = FetchRejects \/ remote env = JsonRejects \/
   (exists data, remote env = JsonResolves data /\
                 forall s rest, data <> JArray (JString s :: rest))) ->
  exists w, getRandomWord env = Some w /\ w ∈ fallbackWords /\
            w <> "" /\ String.length w = wordLength gameConfig.
Proof.
  intros Hfail.
  destruct (fallback_choice (random env)) as (w & Hw & Hin).
  assert (Hnone : getRandomWord_try (remote env) = None).
  { destruct Hfail as [-> | [-> | (data & -> & Hdata)]]; [done..|].
    destruct data as [| | | |[|[] items]|]; try done.
    by destruct (Hdata s items). }
  exists w. unfold getRandomWord. rewrite Hnone.
  split; [done|]. split; [done|].
  pose proof fallbackWords_five_letters as Hall.
  rewrite Forall_forall in Hall. destruct (Hall w Hin). done.
Qed.

Lemma getRandomWord_absorbs_remote_failure_witness :
  let env := {| remote := JsonResolves (JArray []);
                random := {| num := 7; den := 10; num_lt_den := eq_refl |} |} in
  exists w, getRandomWord env = Some w /\ w ∈ fallbackWords /\
            w <> "" /\ String.length w = wordLength gameConfig.
Proof.
  intros env.
  apply (getRandomWord_absorbs_remote_failure env).
  right. right. exists (JArray []). split; [reflexivity|]. intros s rest. discriminate.
Defined.

(** C7: [isWordValid word] holds exactly when the lowercased word is one of
    the ten words of the fallback list, the list [getRandomWord] falls back
    to; words that differ in case only are treated alike; nothing else is
    consulted. *)
Theorem isWordValid_iff_fallback_member (word : string) :
  (isWordValid word = true <-> toLowerCase word ∈ fallbackWords) /\
  (isWordValid word = true <->
   toLowerCase word ∈ [ "apple"; "grape"; "vital"; "spice"; "quick";
                        "proxy"; "flame"; "serve"; "crane"; "blaze" ]) /\
  (forall word', toLowerCase word' = toLowerCase word ->
     isWordValid word' = isWordValid word) /\
  (forall x : UnitInterval,
     exists w, fallbackWords !! floor_times x (length fallbackWords) = Some w /\
               isWordValid w = true).
Proof.
  unfold isWordValid. split; [apply includes_In|]. split; [apply includes_In|].
  split; [by intros word' ->|].
  intros x. destruct (fallback_choice x) as (w & Hw & Hin). exists w. split; [done|].
  revert Hin. clear. intros Hin.
  repeat (apply elem_of_cons in Hin as [->|Hin]; [reflexivity|]).
  by apply elem_of_nil in Hin.
Qed.

Lemma isWordValid_iff_fallback_member_witness :
  toLowerCase "Crane" ∈ fallbackWords /\ isWordValid "Crane" = true.
Proof.
  assert (H : toLowerCase "Crane" ∈ fallbackWords).
  { apply list_elem_of_In. vm_compute. tauto. }
  split; [exact H|].
  exact (proj2 (proj1 (isWordValid_iff_fallback_member "Crane")) H).
Defined.

(** ** The session: outcomes of the handlers *)

Lemma add_requests_nil w : add_requests [] w = w.
Proof. destruct w. unfold add_requests. simpl. by rewrite app_nil_r. Qed.

Lemma add_requests_app rs rs' w :
  add_requests rs' (add_requests rs w) = add_requests (rs ++ rs') w.
Proof. unfold add_requests. simpl. by rewrite app_assoc. Qed.

(** A loop whose body only adds requests, as long as the session state is
    [g], adds the requests of all rounds. *)
Lemma for_each_requests {A} (l : list A) (f : A -> list Request) (body : A -> M unit) g w :
  gameState w = g ->
  (forall x w', gameState w' = g -> body x w' = Return tt (add_requests (f x) w')) ->
  for_each l body w = Return tt (add_requests (x ← l; f x) w).
Proof.
  intros Hw Hbody. revert w Hw. induction l as [|x l IH]; intros w Hw; simpl.
  - by rewrite add_requests_nil.
  - unfold mbind at 1, M_bind. rewrite (Hbody x w Hw).
    rewrite IH by done. by rewrite add_requests_app.
Qed.

Lemma shakeRow_outcome row w :
  shakeRow row w = Return tt (add_requests (rowShakes row) w).
Proof. unfold shakeRow. by apply (for_each_requests _ _ _ (gameState w)). Qed.

Lemma shakeMissingCells_outcome row r w :
  grid (gameState w) !! row = Some r ->
  shakeMissingCells row w = Return tt (add_requests (missingCellShakes row r) w).
Proof.
  intros Hr. unfold shakeMissingCells.
  apply (for_each_requests _ (fun c => if falsy (r !! c) then [Shake row c] else [])
           _ (gameState w)); [done|].
  intros c w' Hw'. unfold gridRow, getState, mbind, M_bind. rewrite Hw', Hr. simpl.
  destruct (falsy (r !! c)); [done|]. by rewrite add_requests_nil.
Qed.

Lemma shakeMissingCells_no_row row w :
  grid (gameState w) !! row = None -> shakeMissingCells row w = Throw w.
Proof.
  intros Hr. unfold shakeMissingCells. simpl.
  unfold gridRow, getState, mbind, M_bind. by rewrite Hr.
Qed.

Lemma revealAttemptResult_outcome row results w :
  revealAttemptResult row results w = Return tt (add_requests (revealRequests row results) w).
Proof.
  unfold revealAttemptResult, revealRequests.
  apply (for_each_requests _ _ _ (gameState w)); [done|].
  intros [col [st|]] w' _; simpl; [done|]. by rewrite add_requests_nil.
Qed.

(** Running [m ≫= k]. *)
Lemma bind_outcome {A B} (m : M A) (k : A -> M B) w a w' :
  m w = Return a w' -> (m ≫= k) w = k a w'.
Proof. intros H. unfold mbind, M_bind. by rewrite H. Qed.

Lemma bind_throw {A B} (m : M A) (k : A -> M B) w w' :
  m w = Throw w' -> (m ≫= k) w = Throw w'.
Proof. intros H. unfold mbind, M_bind. by rewrite H. Qed.

Lemma bind_getState {B} (k : GameState -> M B) w :
  (getState ≫= k) w = k (gameState w) w.
Proof. done. Qed.

Lemma bind_putState {B} g (k : unit -> M B) w :
  (putState g ≫= k) w = k tt (with_state g w).
Proof. done. Qed.

Lemma bind_request {B} r (k : unit -> M B) w :
  (request r ≫= k) w = k tt (add_requests [r] w).
Proof. done. Qed.

Lemma bind_gridRow_Some {B} row r (k : list (option string) -> M B) w :
  grid (gameState w) !! row = Some r -> (gridRow row ≫= k) w = k r w.
Proof. intros H. unfold gridRow, mbind, M_bind, getState. by rewrite H. Qed.

Lemma bind_gridRow_None {B} row (k : list (option string) -> M B) w :
  grid (gameState w) !! row = None -> (gridRow row ≫= k) w = Throw w.
Proof. intros H. unfold gridRow, mbind, M_bind, getState. by rewrite H. Qed.

Section SubmitGuess.
Variable w : World.
Let g := gameState w.

Lemma submitGuess_incomplete r :
  currentCol g < cols gameConfig ->
  grid g !! currentRow g = Some r ->
  submitGuess w = Return tt (add_requests (missingCellShakes (currentRow g) r) w).
Proof.
  intros Hcol Hr. unfold submitGuess. rewrite bind_getState.
  rewrite bool_decide_true by done. by apply shakeMissingCells_outcome.
Qed.

Lemma submitGuess_incomplete_no_row :
  currentCol g < cols gameConfig ->
  grid g !! currentRow g = None ->
  submitGuess w = Throw w.
Proof.
  intros Hcol Hr. unfold submitGuess. rewrite bind_getState.
  rewrite bool_decide_true by done. by apply shakeMissingCells_no_row.
Qed.

Lemma submitGuess_no_row :
  cols gameConfig <= currentCol g ->
  grid g !! currentRow g = None ->
  submitGuess w = Throw w.
Proof.
  intros Hcol Hr. unfold submitGuess. rewrite bind_getState.
  rewrite bool_decide_false by (subst g; lia).
  by rewrite bind_gridRow_None.
Qed.

Lemma submitGuess_invalid r :
  cols gameConfig <= currentCol g ->
  grid g !! currentRow g = Some r ->
  isWordValid (join r) = false ->
  submitGuess w =
  Return tt (add_requests (rowShakes (currentRow g) ++ [Message invalid_message]) w).
Proof.
  intros Hcol Hr Hvalid. unfold submitGuess. rewrite bind_getState.
  rewrite bool_decide_false by (subst g; lia).
  rewrite (bind_gridRow_Some _ r) by done. rewrite Hvalid. cbn [negb].
  rewrite (bind_outcome _ _ _ _ _ (shakeRow_outcome _ _)).
  unfold showMessage, request, add_requests. simpl. by rewrite <- app_assoc.
Qed.

(** The part of [submitGuess] that an accepted word reaches. *)
Lemma submitGuess_accepted r :
  cols gameConfig <= currentCol g ->
  grid g !! currentRow g = Some r ->
  isWordValid (join r) = true ->
  submitGuess w =
  (results ← checkGuess_call (join r) (targetWord g);
   revealAttemptResult (currentRow g) results ;;
   g2 ← getState;
   if bool_decide (Some (join r) = targetWord g2) then
     showMessage win_message ;; removeKeydownListener
   else
     g3 ← getState;
     putState (set_currentRow (currentRow g3 + 1) g3) ;;
     g4 ← getState;
     putState (set_currentCol 0 g4) ;;
     g5 ← getState;
     if bool_decide (rows gameConfig ≤ currentRow g5) then
       outOfAttempts (targetWord g5) ;; removeKeydownListener
     else mret tt) w.
Proof.
  intros Hcol Hr Hvalid. unfold submitGuess. rewrite bind_getState.
  rewrite bool_decide_false by (subst g; lia).
  rewrite (bind_gridRow_Some _ r) by done. rewrite Hvalid. cbn [negb].
  by rewrite bind_getState.
Qed.

Lemma submitGuess_no_target r :
  cols gameConfig <= currentCol g ->
  grid g !! currentRow g = Some r ->
  isWordValid (join r) = true ->
  targetWord g = None ->
  submitGuess w = Throw w.
Proof.
  intros Hcol Hr Hvalid Ht. rewrite (submitGuess_accepted r) by done.
  by rewrite Ht.
Qed.

Lemma submitGuess_win r :
  cols gameConfig <= currentCol g ->
  grid g !! currentRow g = Some r ->
  isWordValid (join r) = true ->
  targetWord g = Some (join r) ->
  submitGuess w =
  Return tt (stop_listening
    (add_requests (revealRequests (currentRow g) (checkGuess (join r) (join r))
                   ++ [Message win_message]) w)).
Proof.
  intros Hcol Hr Hvalid Ht. rewrite (submitGuess_accepted r) by done.
  rewrite Ht. unfold checkGuess_call.
  rewrite (bind_outcome _ _ w _ w eq_refl).
  rewrite (bind_outcome _ _ _ _ _ (revealAttemptResult_outcome _ _ _)).
  rewrite bind_getState. cbn [gameState add_requests]. fold g. rewrite Ht.
  rewrite bool_decide_true by done.
  unfold showMessage. rewrite bind_request, add_requests_app. done.
Qed.

Lemma submitGuess_next r t :
  cols gameConfig <= currentCol g ->
  grid g !! currentRow g = Some r ->
  isWordValid (join r) = true ->
  targetWord g = Some t ->
  join r <> t ->
  currentRow g + 1 < rows gameConfig ->
  submitGuess w =
  Return tt (with_state (next_attempt g)
    (add_requests (revealRequests (currentRow g) (checkGuess (join r) t)) w)).
Proof.
  intros Hcol Hr Hvalid Ht Hne Hrow. rewrite (submitGuess_accepted r) by done.
  rewrite Ht. unfold checkGuess_call.
  rewrite (bind_outcome _ _ w _ w eq_refl).
  rewrite (bind_outcome _ _ _ _ _ (revealAttemptResult_outcome _ _ _)).
  rewrite bind_getState. cbn [gameState add_requests]. fold g. rewrite Ht.
  rewrite bool_decide_false by congruence.
  rewrite bind_getState, bind_putState, bind_getState, bind_putState, bind_getState.
  simpl. rewrite bool_decide_false by (unfold g in *; simpl in *; lia). done.
Qed.

Lemma submitGuess_lost r t :
  cols gameConfig <= currentCol g ->
  grid g !! currentRow g = Some r ->
  isWordValid (join r) = true ->
  targetWord g = Some t ->
  join r <> t ->
  rows gameConfig <= currentRow g + 1 ->
  submitGuess w =
  Return tt (stop_listening (with_state (next_attempt g)
    (add_requests (revealRequests (currentRow g) (checkGuess (join r) t)
                   ++ [Message (lost_message t)]) w))).
Proof.
  intros Hcol Hr Hvalid Ht Hne Hrow. rewrite (submitGuess_accepted r) by done.
  rewrite Ht. unfold checkGuess_call.
  rewrite (bind_outcome _ _ w _ w eq_refl).
  rewrite (bind_outcome _ _ _ _ _ (revealAttemptResult_outcome _ _ _)).
  rewrite bind_getState. cbn [gameState add_requests]. fold g. rewrite Ht.
  rewrite bool_decide_false by congruence.
  rewrite bind_getState, bind_putState, bind_getState, bind_putState, bind_getState.
  simpl. rewrite bool_decide_true by (unfold g in *; simpl in *; lia).
  fold g. rewrite Ht. simpl.
  unfold showMessage. rewrite bind_request.
  unfold stop_listening, with_state, add_requests, next_attempt,
    removeKeydownListener. simpl.
  by rewrite <- app_assoc.
Qed.
End SubmitGuess.

(** Every submission leaves the session state as it was, or moves it to
    the next attempt after an accepted word that is not the target. *)
Lemma submitGuess_state (w : World) :
  let g := gameState w in
  gameState (world_of (submitGuess w)) = g \/
  (exists r t,
     cols gameConfig <= currentCol g /\ grid g !! currentRow g = Some r /\
     isWordValid (join r) = true /\ targetWord g = Some t /\ join r <> t /\
     gameState (world_of (submitGuess w)) = next_attempt g).
Proof.
  intros g. subst g.
  destruct (decide (currentCol (gameState w) < cols gameConfig)) as [Hcol|Hcol].
  { destruct (grid (gameState w) !! currentRow (gameState w)) as [r|] eqn:Hr.
    - rewrite (submitGuess_incomplete w r) by done. by left.
    - rewrite submitGuess_incomplete_no_row by done. by left. }
  apply Nat.nlt_ge in Hcol.
  destruct (grid (gameState w) !! currentRow (gameState w)) as [r|] eqn:Hr;
    [|rewrite submitGuess_no_row by done; by left].
  destruct (isWordValid (join r)) eqn:Hvalid;
    [|rewrite (submitGuess_invalid w r) by done; by left].
  destruct (targetWord (gameState w)) as [t|] eqn:Ht;
    [|rewrite (submitGuess_no_target w r) by done; by left].
  destruct (decide (join r = t)) as [<-|Hne];
    [rewrite (submitGuess_win w r) by done; by left|].
  right. exists r, t. repeat (split; [done|]).
  destruct (decide (currentRow (gameState w) + 1 < rows gameConfig)) as [Hrow|Hrow].
  - by rewrite (submitGuess_next w r t).
  - by rewrite (submitGuess_lost w r t) by (done || lia).
Qed.

Lemma setSlot_outcome row col s r w :
  grid (gameState w) !! row = Some r ->
  setSlot row col s w =
  Return tt (with_state (set_grid (<[row := array_set r col s]> (grid (gameState w)))
                                  (gameState w)) w).
Proof. intros Hr. unfold setSlot. by rewrite (bind_gridRow_Some _ r). Qed.

Lemma setSlot_no_row row col s w :
  grid (gameState w) !! row = None -> setSlot row col s w = Throw w.
Proof. intros Hr. unfold setSlot. by rewrite bind_gridRow_None. Qed.

Section Letters.
Variable w : World.
Let g := gameState w.

Lemma addLetter_full letter :
  cols gameConfig <= currentCol g \/ rows gameConfig <= currentRow g ->
  addLetter letter w = Return tt w.
Proof.
  intros Hfull. unfold addLetter. rewrite bind_getState. fold g.
  destruct Hfull.
  - by rewrite bool_decide_true.
  - rewrite (bool_decide_true (rows gameConfig ≤ _)) by done.
    by rewrite orb_true_r.
Qed.

Lemma addLetter_stored letter r :
  currentCol g < cols gameConfig ->
  currentRow g < rows gameConfig ->
  grid g !! currentRow g = Some r ->
  addLetter letter w =
  Return tt
    (with_state
       {| targetWord := targetWord g; currentRow := currentRow g;
          currentCol := currentCol g + 1;
          grid := <[currentRow g := array_set r (currentCol g) (toLowerCase letter)]> (grid g) |}
       (add_requests [UpdateCell (currentRow g) (currentCol g) letter] w)).
Proof.
  intros Hcol Hrow Hr. unfold addLetter. rewrite bind_getState. fold g.
  rewrite !bool_decide_false by lia. cbn [orb].
  rewrite (bind_outcome _ _ _ _ _ (setSlot_outcome _ _ _ r w Hr)).
  unfold updateCell. rewrite bind_request. done.
Qed.

Lemma addLetter_no_row letter :
  currentCol g < cols gameConfig ->
  currentRow g < rows gameConfig ->
  grid g !! currentRow g = None ->
  addLetter letter w = Throw w.
Proof.
  intros Hcol Hrow Hr. unfold addLetter. rewrite bind_getState. fold g.
  rewrite !bool_decide_false by lia. cbn [orb].
  by rewrite (bind_throw _ _ _ _ (setSlot_no_row _ _ _ w Hr)).
Qed.

Lemma removeLetter_start :
  currentCol g = 0 -> removeLetter w = Return tt w.
Proof.
  intros Hcol. unfold removeLetter. rewrite bind_getState. fold g.
  by rewrite bool_decide_true.
Qed.

Lemma removeLetter_cleared r :
  currentCol g <> 0 ->
  grid g !! currentRow g = Some r ->
  removeLetter w =
  Return tt
    (add_requests [UpdateCell (currentRow g) (currentCol g - 1) ""]
       (with_state
          {| targetWord := targetWord g; currentRow := currentRow g;
             currentCol := currentCol g - 1;
             grid := <[currentRow g := array_set r (currentCol g - 1) ""]> (grid g) |}
          w)).
Proof.
  intros Hcol Hr. unfold removeLetter. rewrite bind_getState. fold g.
  rewrite bool_decide_false by done.
  rewrite bind_putState, bind_getState. cbn [gameState with_state set_currentCol currentCol].
  erewrite bind_outcome; [|apply setSlot_outcome; exact Hr].
  done.
Qed.

Lemma removeLetter_no_row :
  currentCol g <> 0 ->
  grid g !! currentRow g = None ->
  removeLetter w = Throw (with_state (set_currentCol (currentCol g - 1) g) w).
Proof.
  intros Hcol Hr. unfold removeLetter. rewrite bind_getState. fold g.
  rewrite bool_decide_false by done.
  rewrite bind_putState, bind_getState. cbn [gameState with_state set_currentCol currentCol].
  erewrite bind_throw; [done|]. apply setSlot_no_row. exact Hr.
Qed.
End Letters.

(** ** The session: rejected, winning and other submissions *)

Lemma revealRequests_no_message row results text :
  Message text ∉ revealRequests row results.
Proof.
  unfold revealRequests. intros (p & Hin & _)%list_elem_of_bind.
  destruct (p.2); [|by apply elem_of_nil in Hin].
  apply list_elem_of_singleton in Hin. discriminate.
Qed.

Lemma missingCellShakes_no_message row r text :
  Message text ∉ missingCellShakes row r.
Proof.
  unfold missingCellShakes. intros (c & Hin & _)%list_elem_of_bind.
  destruct (falsy (r !! c)); [|by apply elem_of_nil in Hin].
  apply list_elem_of_singleton in Hin. discriminate.
Qed.

(** C5: a submission with the cursor before the last column, and a
    submission of a complete row whose word is not acceptable, both leave
    the session state (grid, currentRow, currentCol, targetWord) as it was.
    The first asks the page to shake the empty cells of the row and shows
    no message; the second asks it to shake the whole row and shows the
    message "Not a valid word": the two signals differ. *)
Theorem submitGuess_rejections (w : World) :
  let g := gameState w in
  (currentCol g < cols gameConfig ->
     gameState (world_of (submitGuess w)) = g /\
     forall r, grid g !! currentRow g = Some r ->
       submitGuess w = Return tt (add_requests (missingCellShakes (currentRow g) r) w) /\
       Message invalid_message ∉ missingCellShakes (currentRow g) r) /\
  (forall r, cols gameConfig <= currentCol g ->
     grid g !! currentRow g = Some r ->
     isWordValid (join r) = false ->
     gameState (world_of (submitGuess w)) = g /\
     submitGuess w =
       Return tt (add_requests (rowShakes (currentRow g) ++ [Message invalid_message]) w) /\
     Message invalid_message ∈ rowShakes (currentRow g) ++ [Message invalid_message]).
Proof.
  intros g. split.
  - intros Hcol. split.
    + destruct (grid g !! currentRow g) as [r|] eqn:Hr.
      * by rewrite (submitGuess_incomplete w r).
      * by rewrite submitGuess_incomplete_no_row.
    + intros r Hr. split; [by apply submitGuess_incomplete|].
      apply missingCellShakes_no_message.
  - intros r Hcol Hr Hvalid. rewrite (submitGuess_invalid w r) by done.
    split; [done|]. split; [done|].
    apply elem_of_app. right. by apply list_elem_of_singleton.
Qed.

Lemma submitGuess_rejections_witness :
  let incomplete := keydowns (startGame offline_crane) (typed "cra") in
  let invalid := keydowns (startGame offline_crane) (typed "house") in
  (currentCol (gameState incomplete) < cols gameConfig /\
   gameState (world_of (submitGuess incomplete)) = gameState incomplete) /\
  (cols gameConfig <= currentCol (gameState invalid) /\
   isWordValid "house" = false /\
   gameState (world_of (submitGuess invalid)) = gameState invalid /\
   submitGuess invalid =
     Return tt (add_requests (rowShakes 0 ++ [Message invalid_message]) invalid)).
Proof.
  intros incomplete invalid.
  assert (Hcol : currentCol (gameState incomplete) < cols gameConfig)
    by (vm_compute; lia).
  assert (Hfull : cols gameConfig <= currentCol (gameState invalid))
    by (vm_compute; lia).
  split.
  - split; [exact Hcol|].
    exact (proj1 (proj1 (submitGuess_rejections incomplete) Hcol)).
  - split; [exact Hfull|]. split; [reflexivity|].
    destruct (proj2 (submitGuess_rejections invalid) (Some <$> typed "house"))
      as (H1 & H2 & _); [exact Hfull|reflexivity|reflexivity|].
    split; [exact H1|exact H2].
Defined.

Lemma keydowns_not_listening (w : World) (keys : list string) :
  listening w = false -> keydowns w keys = w.
Proof.
  intros Hoff. unfold keydowns. induction keys as [|key keys IH]; [done|].
  simpl. unfold keydown at 2. by rewrite Hoff.
Qed.

(** C6, as the claim states it, fails: the target may come from the remote
    word list, and a guess equal to such a target is rejected as an invalid
    word.  With the target "house", typing "house" and pressing Enter
    leaves the session where it was, shows "Not a valid word" and keeps the
    keydown listener: the session is not won. *)
Lemma target_outside_fallback_list_cannot_win :
  let w := keydowns (startGame remote_house) (typed "house") in
  let w' := keydown w "Enter" in
  targetWord (gameState w) = Some "house" /\
  join <$> grid (gameState w) !! currentRow (gameState w) = Some "house" /\
  currentCol (gameState w) = cols gameConfig /\
  gameState w' = gameState w /\
  listening w' = true /\
  requests w' = requests w ++ rowShakes 0 ++ [Message invalid_message] /\
  Message win_message ∉ requests w'.
Proof.
  repeat (split; [reflexivity|]).
  intros H. vm_compute in H.
  repeat (apply elem_of_cons in H as [H|H]; [discriminate|]).
  by apply elem_of_nil in H.
Qed.

(** C6, amended: whenever the submitted row is complete, its word is
    acceptable (a word of the fallback list) and equal to the target, on
    any attempt and so also on the last one, [submitGuess] reveals the
    statuses, shows the winning message and no "Out of attempts" message,
    leaves the session state as it was and removes the keydown listener:
    no later key changes anything. *)
Theorem accepted_target_guess_wins (w : World) (r : list (option string)) :
  let g := gameState w in
  cols gameConfig <= currentCol g ->
  grid g !! currentRow g = Some r ->
  isWordValid (join r) = true ->
  targetWord g = Some (join r) ->
  exists w',
    submitGuess w = Return tt w' /\
    gameState w' = g /\
    listening w' = false /\
    requests w' =
      requests w ++ revealRequests (currentRow g) (checkGuess (join r) (join r))
                 ++ [Message win_message] /\
    (forall t, Message (lost_message t) ∉
       revealRequests (currentRow g) (checkGuess (join r) (join r))
       ++ [Message win_message]) /\
    (forall keys, keydowns w' keys = w').
Proof.
  intros g Hcol Hr Hvalid Ht. eexists. split; [by apply (submitGuess_win w r)|].
  split; [done|]. split; [done|]. split; [done|]. split.
  - intros t [H|H]%elem_of_app.
    + by apply revealRequests_no_message in H.
    + apply list_elem_of_singleton in H. discriminate.
  - intros keys. by apply keydowns_not_listening.
Qed.

(** The last attempt: five accepted wrong guesses, then the target. *)
Lemma accepted_target_guess_wins_witness :
  let w := keydowns (startGame offline_crane)
             (concat (replicate 5 (typed "apple" ++ ["Enter"])) ++ typed "crane") in
  currentRow (gameState w) + 1 = rows gameConfig /\
  exists w',
    submitGuess w = Return tt w' /\
    gameState w' = gameState w /\
    listening w' = false /\
    requests w' =
      requests w ++ revealRequests 5 (checkGuess "crane" "crane") ++ [Message win_message] /\
    (forall keys, keydowns w' keys = w').
Proof.
  intros w. split; [reflexivity|].
  destruct (accepted_target_guess_wins w (Some <$> typed "crane"))
    as (w' & H1 & H2 & H3 & H4 & _ & H6);
    [vm_compute; lia|reflexivity|reflexivity|reflexivity|].
  exists w'. split; [exact H1|]. split; [exact H2|]. split; [exact H3|].
  split; [exact H4|exact H6].
Defined.

(** C10: a winning submission leaves currentRow, currentCol and the grid as
    they were; an accepted submission that does not win adds 1 to
    currentRow and sets currentCol to 0 (the grid stays); no submission,
    accepted or not, changes targetWord. *)
Theorem submitGuess_frame (w : World) :
  let g := gameState w in
  let g' := gameState (world_of (submitGuess w)) in
  targetWord g' = targetWord g /\
  (forall r, cols gameConfig <= currentCol g ->
     grid g !! currentRow g = Some r ->
     isWordValid (join r) = true ->
     targetWord g = Some (join r) ->
     currentRow g' = currentRow g /\ currentCol g' = currentCol g /\ grid g' = grid g) /\
  (forall r t, cols gameConfig <= currentCol g ->
     grid g !! currentRow g = Some r ->
     isWordValid (join r) = true ->
     targetWord g = Some t ->
     join r <> t ->
     currentRow g' = currentRow g + 1 /\ currentCol g' = 0 /\ grid g' = grid g).
Proof.
  intros g g'. unfold g, g' in *. clear g g'. split; [|split].
  - destruct (submitGuess_state w) as [H|(r & t & _ & _ & _ & _ & _ & H)];
      rewrite H; done.
  - intros r Hcol Hr Hvalid Ht.
    by rewrite (submitGuess_win w r).
  - intros r t Hcol Hr Hvalid Ht Hne.
    destruct (decide (currentRow (gameState w) + 1 < rows gameConfig)) as [Hrow|Hrow].
    + by rewrite (submitGuess_next w r t).
    + by rewrite (submitGuess_lost w r t) by (done || lia).
Qed.

Lemma submitGuess_frame_witness :
  let w := keydowns (startGame offline_crane) (typed "grape") in
  let g' := gameState (world_of (submitGuess w)) in
  isWordValid "grape" = true /\ "grape" <> "crane" /\
  currentRow (gameState w) = 0 /\
  currentRow g' = 1 /\ currentCol g' = 0 /\ grid g' = grid (gameState w).
Proof.
  intros w g'. split; [reflexivity|]. split; [discriminate|]. split; [reflexivity|].
  apply (proj2 (proj2 (submitGuess_frame w)) (Some <$> typed "grape") "crane");
    [vm_compute; lia|reflexivity|reflexivity|reflexivity|discriminate].
Defined.

(** ** The session: the grid invariant *)

Lemma isLetter_single (letter : string) :
  isLetter letter = true ->
  exists c, letter = String c EmptyString /\ (is_lower c || is_upper c) = true.
Proof.
  unfold isLetter, test_a_zA_Z. intros [Hlen Hc]%andb_true_iff.
  apply bool_decide_eq_true in Hlen.
  destruct letter as [|c [|]]; simplify_eq/=.
  exists c. split; [done|]. by rewrite orb_false_r in Hc.
Qed.

Lemma lower_char_is_lower (c : ascii) :
  (is_lower c || is_upper c) = true -> is_lower (lower_char c) = true.
Proof.
  destruct c as [[] [] [] [] [] [] [] []]; vm_compute; intros; congruence.
Qed.

Lemma toLowerCase_letter_ok (letter : string) :
  isLetter letter = true -> slot_ok (Some (toLowerCase letter)).
Proof.
  intros (c & -> & Hc)%isLetter_single. right. exists (lower_char c).
  split; [by apply lower_char_is_lower|done].
Qed.

Lemma initialiseGame_outcome (env : Env) (w : World) :
  initialiseGame env w =
  Return tt (with_state
    {| targetWord := getRandomWord env; currentRow := 0; currentCol := 0;
       grid := replicate (rows gameConfig) (replicate (cols gameConfig) (Some "")) |} w).
Proof. done. Qed.

Lemma SessionInv_row (g : GameState) :
  SessionInv g -> currentRow g < rows gameConfig ->
  exists r, grid g !! currentRow g = Some r /\
            length r = cols gameConfig /\ Forall slot_ok r.
Proof.
  intros [Hrows Hcols Hslots _ _] Hrow.
  destruct (lookup_lt_is_Some_2 (grid g) (currentRow g)) as [r Hr]; [lia|].
  exists r. split; [done|]. split.
  - by apply (Forall_lookup_1 _ _ _ _ Hcols Hr).
  - by apply (Forall_lookup_1 _ _ _ _ Hslots Hr).
Qed.

(** Writing an admissible slot inside the grid keeps its shape and its
    slots. *)
Lemma SessionInv_write (g : GameState) r col s cursor :
  SessionInv g ->
  grid g !! currentRow g = Some r ->
  col < cols gameConfig ->
  slot_ok (Some s) ->
  cursor <= cols gameConfig ->
  SessionInv {| targetWord := targetWord g; currentRow := currentRow g;
                currentCol := cursor;
                grid := <[currentRow g := array_set r col s]> (grid g) |}.
Proof.
  intros Hinv Hr Hcol Hs Hcursor. pose proof Hinv as [Hrows Hcols Hslots _ Hatt].
  pose proof (Forall_lookup_1 _ _ _ _ Hcols Hr) as Hlen. cbv beta in Hlen.
  pose proof (Forall_lookup_1 _ _ _ _ Hslots Hr) as Hok.
  rewrite array_set_in_range by lia.
  constructor; simpl; [|apply Forall_insert; [done|]..|done|done].
  - by rewrite length_insert.
  - by rewrite length_insert.
  - by apply Forall_insert.
Qed.

Lemma addLetter_inv (letter : string) (w : World) :
  isLetter letter = true ->
  SessionInv (gameState w) ->
  SessionInv (gameState (world_of (addLetter letter w))).
Proof.
  intros Hletter Hinv.
  destruct (decide (cols gameConfig <= currentCol (gameState w) \/
                    rows gameConfig <= currentRow (gameState w))) as [Hfull|Hfree].
  { by rewrite addLetter_full. }
  destruct (SessionInv_row _ Hinv) as (r & Hr & _); [lia|].
  rewrite (addLetter_stored w letter r) by (done || lia).
  apply SessionInv_write; [done|done|lia|by apply toLowerCase_letter_ok|lia].
Qed.

Lemma removeLetter_inv (w : World) :
  SessionInv (gameState w) ->
  SessionInv (gameState (world_of (removeLetter w))).
Proof.
  intros Hinv. pose proof Hinv as [Hrows Hcols Hslots Hcursor Hatt].
  destruct (decide (currentCol (gameState w) = 0)) as [Hcol|Hcol].
  { by rewrite removeLetter_start. }
  destruct (grid (gameState w) !! currentRow (gameState w)) as [r|] eqn:Hr.
  - rewrite (removeLetter_cleared w r) by done.
    apply SessionInv_write; [done|done|lia|by left|lia].
  - rewrite removeLetter_no_row by done.
    constructor; simpl in *; [done..|lia|done].
Qed.

Lemma submitGuess_inv (w : World) :
  SessionInv (gameState w) ->
  SessionInv (gameState (world_of (submitGuess w))).
Proof.
  intros Hinv. pose proof Hinv as [Hrows Hcols Hslots Hcursor Hatt].
  destruct (submitGuess_state w) as [->|(r & t & _ & Hr & _ & _ & _ & ->)]; [done|].
  apply lookup_lt_Some in Hr.
  constructor; simpl in *; [done..|lia|lia].
Qed.

Lemma keydown_inv (key : string) (w : World) :
  SessionInv (gameState w) -> SessionInv (gameState (keydown w key)).
Proof.
  intros Hinv. unfold keydown, handleKeydown.
  destruct (listening w); [|done].
  destruct (isLetter key) eqn:Hletter; [by apply addLetter_inv|].
  case_bool_decide; [by apply removeLetter_inv|].
  case_bool_decide; [by apply submitGuess_inv|done].
Qed.

Lemma initialiseGame_inv (env : Env) (w : World) :
  SessionInv (gameState (world_of (initialiseGame env w))).
Proof.
  rewrite initialiseGame_outcome.
  constructor; simpl; [done| |repeat constructor; by left|lia|lia].
  repeat constructor.
Qed.

(** C9: after [initialiseGame] every slot of the grid is the empty string;
    [addLetter] stores its letter in lowercase, also when the key is an
    uppercase letter; [addLetter] (on a key that [isLetter] admits, as
    [handleKeydown] calls it), [removeLetter] and [submitGuess] keep the
    invariant that the grid has its shape and every slot is empty or one
    lowercase letter; so does every keydown event, and so every state the
    session reaches. *)
Theorem grid_slots_invariant :
  (forall env w,
     let g := gameState (world_of (initialiseGame env w)) in
     SessionInv g /\ Forall (Forall (fun slot => slot = Some "")) (grid g)) /\
  (forall letter w,
     isLetter letter = true ->
     SessionInv (gameState w) ->
     let g := gameState w in
     let g' := gameState (world_of (addLetter letter w)) in
     SessionInv g' /\
     (currentCol g < cols gameConfig -> currentRow g < rows gameConfig ->
      grid g' !! currentRow g ≫= (.!! currentCol g) = Some (Some (toLowerCase letter)))) /\
  (forall w, SessionInv (gameState w) ->
     SessionInv (gameState (world_of (removeLetter w)))) /\
  (forall w, SessionInv (gameState w) ->
     SessionInv (gameState (world_of (submitGuess w)))) /\
  (forall env keys,
     Forall (Forall slot_ok) (grid (gameState (keydowns (startGame env) keys)))).
Proof.
  split; [|split; [|split; [|split]]].
  - intros env w g. split; [apply initialiseGame_inv|].
    subst g. rewrite initialiseGame_outcome. simpl. repeat constructor.
  - intros letter w Hletter Hinv g g'. split; [by apply addLetter_inv|].
    intros Hcol Hrow. subst g g'.
    destruct (SessionInv_row _ Hinv Hrow) as (r & Hr & Hlen & _).
    rewrite (addLetter_stored w letter r) by done. simpl.
    pose proof (lookup_lt_Some _ _ _ Hr) as Hlt.
    rewrite list_lookup_insert_eq by done. simpl.
    rewrite array_set_in_range by lia.
    by rewrite list_lookup_insert_eq by lia.
  - apply removeLetter_inv.
  - apply submitGuess_inv.
  - intros env keys.
    cut (SessionInv (gameState (keydowns (startGame env) keys))); [by intros []|].
    unfold keydowns.
    assert (Hstart : SessionInv (gameState (startGame env)))
      by apply (initialiseGame_inv env loaded).
    revert Hstart. generalize (startGame env).
    induction keys as [|key keys IH]; intros w Hw; [done|].
    simpl. apply IH. by apply keydown_inv.
Qed.

Lemma grid_slots_invariant_witness :
  let w := startGame offline_crane in
  let g' := gameState (world_of (addLetter "A" w)) in
  isLetter "A" = true /\
  SessionInv g' /\
  grid g' !! 0 ≫= (.!! 0) = Some (Some "a").
Proof.
  intros w g'. split; [reflexivity|].
  destruct grid_slots_invariant as (Hinit & Hadd & _).
  destruct (Hadd "A" w eq_refl (proj1 (Hinit offline_crane loaded))) as [Hinv Hslot].
  split; [exact Hinv|].
  apply Hslot; vm_compute; lia.
Defined.

(** ** The guess evaluator: exact marks *)

Lemma markedPositions_insert_exact c gs res i g r y :
  gs !! i = Some g ->
  res !! i = Some r ->
  markedPositions c gs (<[i := y]> res)
  + (if bool_decide (g = c) && is_marked r then 1 else 0)
  = markedPositions c gs res
  + (if bool_decide (g = c) && is_marked y then 1 else 0).
Proof.
  intros Hg Hr. unfold markedPositions.
  assert (Hz : zip gs res !! i = Some (g, r)).
  { rewrite lookup_zip_with, Hg, Hr. done. }
  assert (Hins : zip gs (<[i := y]> res) = <[i := (g, y)]> (zip gs res)).
  { rewrite (insert_zip_with pair gs res i g y). by rewrite (list_insert_id gs i g Hg). }
  rewrite Hins.
  exact (count_if_insert (fun p => bool_decide (p.1 = c) && is_marked p.2)
           _ i _ (g, y) Hz).
Qed.

Lemma markedPositions_cons c g gs r res :
  markedPositions c (g :: gs) (r :: res)
  = (if bool_decide (g = c) && is_marked r then 1 else 0) + markedPositions c gs res.
Proof. done. Qed.

Lemma occurrences_cons `{EqDecision A} (x y : A) (l : list A) :
  occurrences x (y :: l) = (if bool_decide (y = x) then 1 else 0) + occurrences x l.
Proof. done. Qed.

Lemma markedPositions_le c gs res :
  markedPositions c gs res <= occurrences c gs.
Proof.
  revert res. induction gs as [|g gs IH]; intros [|r res];
    rewrite ?occurrences_cons, ?markedPositions_cons; try (cbn; lia).
  specialize (IH res).
  destruct (bool_decide (g = c)), (is_marked r); simpl; lia.
Qed.

Lemma markedPositions_pos c gs res j r :
  gs !! j = Some c -> res !! j = Some r -> is_marked r = true ->
  0 < markedPositions c gs res.
Proof.
  revert res j. induction gs as [|g gs IH]; intros [|r' res] [|j] Hg Hr Hm;
    simplify_eq/=; rewrite markedPositions_cons.
  - rewrite bool_decide_true by done. rewrite Hm. simpl. lia.
  - specialize (IH res j Hg Hr Hm). lia.
Qed.

(** Either every position that holds [c] is marked, or some position that
    holds [c] has an unmarked status. *)
Lemma markedPositions_all_or_unmarked c gs res :
  length gs <= length res ->
  markedPositions c gs res = occurrences c gs \/
  exists j r, gs !! j = Some c /\ res !! j = Some r /\ is_marked r = false.
Proof.
  revert res. induction gs as [|g gs IH]; intros [|r res] Hlen; simpl in Hlen;
    try lia; [by left..|].
  rewrite occurrences_cons, markedPositions_cons.
  destruct (IH res) as [Hall|(j & r' & Hj & Hr & Hm)]; [lia| |].
  - destruct (bool_decide (g = c)) eqn:Hgc; simpl; [|left; lia].
    destruct (is_marked r) eqn:Hm; [left; lia|].
    right. exists 0, r. apply bool_decide_eq_true in Hgc. by subst.
  - right. by exists (S j), r'.
Qed.

Lemma includes_false_occurrences `{EqDecision A} (l : list A) (x : A) :
  includes l x = false -> occurrences x l = 0.
Proof.
  induction l as [|y l IH]; [done|]. simpl. rewrite occurrences_cons.
  destruct (decide (y = x)); [done|]. intros H.
  rewrite bool_decide_false by done. by rewrite IH.
Qed.

Lemma occurrences_pos_elem `{EqDecision A} (l : list A) (x : A) :
  0 < occurrences x l -> x ∈ l.
Proof.
  induction l as [|y l IH]; [cbn; lia|]. rewrite occurrences_cons.
  case_bool_decide as Hy; [subst; intros _; apply elem_of_cons; by left|].
  intros H. apply elem_of_cons. right. apply IH. lia.
Qed.

Lemma occurrences_not_elem `{EqDecision A} (l : list A) (x : A) :
  x ∉ l -> occurrences x l = 0.
Proof.
  intros Hx. destruct (occurrences x l) eqn:E; [done|].
  destruct Hx. apply occurrences_pos_elem. lia.
Qed.

Section CheckGuessExact.
Variables gs ts : list ascii.
Hypothesis Hlen : length gs <= wordLength gameConfig.

(** The first loop writes [correct] over [wrong] only, at positions of the
    guess. *)
Lemma firstPass_exact :
  let st := for_upto (length gs) firstPassStep (checkGuess_start gs ts) in
  CheckInv gs ts st /\ CheckExact gs ts st /\
  (forall j, j < wordLength gameConfig ->
     result st !! j = Some (Some correct) \/ result st !! j = Some (Some wrong)).
Proof.
  cut (let st := for_upto (length gs) firstPassStep (checkGuess_start gs ts) in
       CheckInv gs ts st /\
       (forall j, length gs <= j -> j < wordLength gameConfig ->
          result st !! j = Some (Some wrong)) /\
       (forall j, j < wordLength gameConfig ->
          result st !! j = Some (Some correct) \/ result st !! j = Some (Some wrong)) /\
       (forall c, markedPositions c gs (result st)
                  + occurrences (Some c) (targetLetters st) = occurrences c ts)).
  { intros (Hinv & Htail & Hcw & Hcnt). split; [done|]. split; [|done]. by constructor. }
  apply (for_upto_ind (fun k st =>
    CheckInv gs ts st /\
    (forall j, k <= j -> j < wordLength gameConfig -> result st !! j = Some (Some wrong)) /\
    (forall j, j < wordLength gameConfig ->
       result st !! j = Some (Some correct) \/ result st !! j = Some (Some wrong)) /\
    (forall c, markedPositions c gs (result st)
               + occurrences (Some c) (targetLetters st) = occurrences c ts))).
  - split; [apply start_inv|]. cbn [checkGuess_start result targetLetters].
    split; [|split].
    + intros j _ Hj. by apply lookup_replicate_2.
    + intros j Hj. right. by apply lookup_replicate_2.
    + intros c. by rewrite markedPositions_fresh, occurrences_fmap_Some.
  - intros k st Hk (Hinv & Hrest & Hcw & Hcnt).
    split; [by apply firstPassStep_inv|].
    pose proof Hinv as [Hg Hr _ Hgl Htl Hcons _ _].
    unfold firstPassStep. case_decide as Heq.
    2:{ split; [intros j Hj; apply Hrest; lia|done]. }
    destruct (lookup_lt_is_Some_2 (guessLetters st) k) as [x Hx]; [lia|].
    rewrite Hx in Heq. symmetry in Heq.
    cbn [result targetLetters guessLetters].
    rewrite array_set_in_range by lia.
    assert (Hwrong : result st !! k = Some (Some wrong)) by (apply Hrest; lia).
    destruct x as [g|].
    2:{ apply Hcons in Hx; [|lia]. congruence. }
    split; [|split].
    + intros j Hj Hj5. rewrite list_lookup_insert_ne by lia. apply Hrest; lia.
    + intros j Hj. insert_cases k j; [by left|by apply Hcw].
    + intros c.
      pose proof (markedPositions_insert_exact c gs (result st) k g _ (Some correct)
                    (Hgl k g Hx) Hwrong) as Hm.
      pose proof (occurrences_consume (targetLetters st) k g c Heq) as Ho.
      specialize (Hcnt c). simpl in Hm.
      rewrite andb_false_r, andb_true_r in Hm. lia.
Qed.

(** The second loop marks a position at most once, and leaves [wrong] a
    position whose letter has no occurrence left in [targetLetters]. *)
Lemma loops_exact :
  let st := for_upto (length gs) secondPassStep
              (for_upto (length gs) firstPassStep (checkGuess_start gs ts)) in
  CheckInv gs ts st /\ CheckExact gs ts st /\
  (forall j c, j < length gs -> gs !! j = Some c ->
     result st !! j = Some (Some wrong) ->
     occurrences (Some c) (targetLetters st) = 0).
Proof.
  destruct firstPass_exact as (Hinv1 & [Htail1 Hcnt1] & Hcw1).
  cut (let st := for_upto (length gs) secondPassStep
                   (for_upto (length gs) firstPassStep (checkGuess_start gs ts)) in
       CheckInv gs ts st /\ CheckExact gs ts st /\
       (forall j c, length gs <= j -> guessLetters st !! j = Some (Some c) ->
          result st !! j = Some (Some wrong)) /\
       (forall j c, j < length gs -> guessLetters st !! j = Some (Some c) ->
          result st !! j = Some (Some wrong) ->
          occurrences (Some c) (targetLetters st) = 0)).
  { intros H. cbv zeta in *.
    set (st := for_upto (length gs) secondPassStep _) in *.
    destruct H as (Hinv & Hex & _ & Hdone). split; [done|]. split; [done|].
    intros j c Hj Hgj Hw. pose proof Hinv as [Hg _ _ Hgl _ Hcons _ _].
    destruct (lookup_lt_is_Some_2 (guessLetters st) j) as [[c'|] Hx]; [lia| |].
    - pose proof (Hgl j c' Hx). apply (Hdone j c); [done| |done]. congruence.
    - apply Hcons in Hx; [|done]. congruence. }
  apply (for_upto_ind (fun k st =>
    CheckInv gs ts st /\ CheckExact gs ts st /\
    (forall j c, k <= j -> guessLetters st !! j = Some (Some c) ->
       result st !! j = Some (Some wrong)) /\
    (forall j c, j < k -> guessLetters st !! j = Some (Some c) ->
       result st !! j = Some (Some wrong) ->
       occurrences (Some c) (targetLetters st) = 0))).
  - split; [done|]. split; [by constructor|]. split; [|intros; lia].
    intros j c _ Hx. pose proof Hinv1 as [Hg _ _ _ _ Hcons _ _].
    pose proof (lookup_lt_Some _ _ _ Hx) as Hj.
    destruct (Hcw1 j) as [Hc|Hw]; [lia| |done].
    apply Hcons in Hc; [|lia]. congruence.
  - intros k st Hk (Hinv & [Htail Hcnt] & Hfresh & Hdone).
    split; [by apply secondPassStep_inv|].
    pose proof Hinv as [Hg Hr _ Hgl _ _ _ _].
    unfold secondPassStep.
    destruct (guessLetters st !! k) as [[c0|]|] eqn:Hx.
    2:{ split; [by constructor|]. split; [intros j c Hj; apply Hfresh; lia|].
        intros j c Hj Hgj. destruct (decide (j = k)) as [->|]; [congruence|].
        apply Hdone; [lia|done]. }
    2:{ split; [by constructor|]. split; [intros j c Hj; apply Hfresh; lia|].
        intros j c Hj Hgj. destruct (decide (j = k)) as [->|]; [congruence|].
        apply Hdone; [lia|done]. }
    destruct (includes (targetLetters st) (Some c0)) eqn:Hinc.
    2:{ split; [by constructor|]. split; [intros j c Hj; apply Hfresh; lia|].
        intros j c Hj Hgj Hw. destruct (decide (j = k)) as [->|].
        - simplify_eq. by apply includes_false_occurrences.
        - apply (Hdone j c); [lia|done|done]. }
    destruct (includes_indexOf _ _ Hinc) as [index Hidx]. rewrite Hidx.
    pose proof (indexOf_lookup _ _ _ Hidx) as Ht.
    cbn [result targetLetters guessLetters].
    rewrite array_set_in_range by lia.
    assert (Hwrong : result st !! k = Some (Some wrong)) by (by apply (Hfresh k c0)).
    split; [|split].
    + constructor; cbn [result targetLetters].
      * intros j Hj Hj5. rewrite list_lookup_insert_ne by lia. by apply Htail.
      * intros c.
        pose proof (markedPositions_insert_exact c gs (result st) k c0 _ (Some misplaced)
                      (Hgl k c0 Hx) Hwrong) as Hm.
        pose proof (occurrences_consume (targetLetters st) index c0 c Ht) as Ho.
        specialize (Hcnt c). simpl in Hm.
        rewrite andb_false_r, andb_true_r in Hm. lia.
    + intros j c Hj Hgj. rewrite list_lookup_insert_ne by lia. apply (Hfresh j c); [lia|done].
    + intros j c Hj Hgj. insert_cases k j; [done|]. intros Hw.
      pose proof (occurrences_consume (targetLetters st) index c0 c Ht) as Ho.
      pose proof (Hdone j c) as Hz. rewrite Hz in Ho by (done || lia). lia.
Qed.
End CheckGuessExact.

Lemma checkGuess_exact (guess target : string) :
  String.length guess <= wordLength gameConfig ->
  CheckInv (split guess) (split target) (checkGuess_loops guess target) /\
  CheckExact (split guess) (split target) (checkGuess_loops guess target) /\
  (forall j c, j < String.length guess -> split guess !! j = Some c ->
     checkGuess guess target !! j = Some (Some wrong) ->
     occurrences (Some c) (targetLetters (checkGuess_loops guess target)) = 0).
Proof.
  intros Hlen. rewrite <- split_length in *.
  exact (loops_exact (split guess) (split target) Hlen).
Qed.

(** X1: for a guess of at most five letters, the status of a position of
    the guess is [correct] exactly when the target holds the same letter
    at that position. *)
Theorem checkGuess_correct_iff_same_letter (guess target : string) (j : nat) :
  String.length guess <= wordLength gameConfig ->
  j < String.length guess ->
  checkGuess guess target !! j = Some (Some correct) <->
  split guess !! j = split target !! j.
Proof.
  intros Hlen Hj. destruct (checkGuess_inv guess target Hlen) as [Hinv Hcorr].
  pose proof Hinv as [_ _ _ _ _ _ Hagr _].
  fold (checkGuess guess target) in Hagr.
  split; [by intros [_ ?]%Hagr|by apply Hcorr].
Qed.

Lemma checkGuess_correct_iff_same_letter_witness :
  checkGuess "flame" "blaze" !! 1 = Some (Some correct) <->
  split "flame" !! 1 = split "blaze" !! 1.
Proof.
  apply (checkGuess_correct_iff_same_letter "flame" "blaze" 1); vm_compute; lia.
Defined.

(** X2: a five-letter guess evaluated against itself is [correct] at all
    five positions. *)
Theorem checkGuess_same_word_all_correct (guess : string) :
  String.length guess = wordLength gameConfig ->
  checkGuess guess guess = replicate (wordLength gameConfig) (Some correct).
Proof.
  intros Hlen. destruct (checkGuess_inv guess guess) as [Hinv Hcorr]; [lia|].
  pose proof Hinv as [_ Hr _ _ _ _ _ _]. fold (checkGuess guess guess) in Hr.
  apply list_eq. intros j. destruct (decide (j < wordLength gameConfig)) as [Hj|Hj].
  - rewrite lookup_replicate_2 by done. apply Hcorr; [lia|done].
  - rewrite !lookup_ge_None_2; [done|rewrite length_replicate; lia|lia].
Qed.

Lemma checkGuess_same_word_all_correct_witness :
  checkGuess "proxy" "proxy" = replicate (wordLength gameConfig) (Some correct).
Proof. apply (checkGuess_same_word_all_correct "proxy"). reflexivity. Defined.

(** X3: a position is [misplaced] only if it is a position of the guess
    whose letter differs from the target's letter there and occurs
    somewhere in the target. *)
Theorem checkGuess_misplaced_sound (guess target : string) (j : nat) :
  String.length guess <= wordLength gameConfig ->
  checkGuess guess target !! j = Some (Some misplaced) ->
  exists c, split guess !! j = Some c /\
            split target !! j <> Some c /\
            c ∈ split target.
Proof.
  intros Hlen Hm.
  destruct (checkGuess_exact guess target Hlen) as (Hinv & [Htail Hcnt] & _).
  destruct (checkGuess_inv guess target Hlen) as [_ Hcorr].
  pose proof Hinv as [_ Hr _ _ _ _ _ _].
  fold (checkGuess guess target) in Hr, Htail, Hcnt.
  pose proof (lookup_lt_Some _ _ _ Hm) as Hj5. rewrite Hr in Hj5.
  assert (Hj : j < length (split guess)).
  { destruct (decide (j < length (split guess))); [done|].
    rewrite Htail in Hm by lia. discriminate. }
  destruct (lookup_lt_is_Some_2 _ _ Hj) as [c Hc].
  exists c. split; [done|]. split.
  - intros Ht. rewrite Hcorr in Hm; [discriminate| |congruence].
    by rewrite <- split_length.
  - apply occurrences_pos_elem.
    pose proof (markedPositions_pos c _ _ j _ Hc Hm eq_refl). specialize (Hcnt c). lia.
Qed.

Lemma checkGuess_misplaced_sound_witness :
  checkGuess "grape" "spice" !! 3 = Some (Some misplaced) /\
  exists c, split "grape" !! 3 = Some c /\
            split "spice" !! 3 <> Some c /\ c ∈ split "spice".
Proof.
  split; [reflexivity|].
  apply (checkGuess_misplaced_sound "grape" "spice" 3); [vm_compute; lia|reflexivity].
Defined.

(** X4: when no letter of a guess of at most five letters occurs in the
    target, all five statuses are [wrong]. *)
Theorem checkGuess_no_common_letter_all_wrong (guess target : string) :
  String.length guess <= wordLength gameConfig ->
  (forall c, c ∈ split guess -> c ∉ split target) ->
  checkGuess guess target = replicate (wordLength gameConfig) (Some wrong).
Proof.
  intros Hlen Hdisj.
  destruct (checkGuess_exact guess target Hlen) as (Hinv & [Htail Hcnt] & _).
  pose proof Hinv as [_ Hr Hs _ _ _ _ _].
  fold (checkGuess guess target) in Hr, Hs, Htail, Hcnt.
  apply list_eq. intros j. destruct (decide (j < wordLength gameConfig)) as [Hj|Hj].
  2:{ rewrite !lookup_ge_None_2; [done|rewrite length_replicate; lia|lia]. }
  rewrite lookup_replicate_2 by done.
  destruct (decide (j < length (split guess))) as [Hjg|Hjg]; [|apply Htail; lia].
  destruct (lookup_lt_is_Some_2 _ _ Hjg) as [c Hc].
  destruct (Hs j Hj) as [s Hst].
  assert (Hnone : occurrences c (split target) = 0).
  { apply occurrences_not_elem, Hdisj. by eapply list_elem_of_lookup_2. }
  destruct s; [| |done].
  - pose proof (markedPositions_pos c _ _ j _ Hc Hst eq_refl). specialize (Hcnt c). lia.
  - pose proof (markedPositions_pos c _ _ j _ Hc Hst eq_refl). specialize (Hcnt c). lia.
Qed.

Lemma checkGuess_no_common_letter_all_wrong_witness :
  checkGuess "quick" "flame" = replicate (wordLength gameConfig) (Some wrong).
Proof.
  apply (checkGuess_no_common_letter_all_wrong "quick" "flame"); [vm_compute; lia|].
  intros c Hc Ht. vm_compute in Hc, Ht.
  repeat (apply elem_of_cons in Hc as [->|Hc];
          [repeat (apply elem_of_cons in Ht as [Ht|Ht]; [discriminate|]);
           by apply elem_of_nil in Ht|]).
  by apply elem_of_nil in Hc.
Defined.

(** X5: for a guess of at most five letters and every letter [c], the
    positions that hold [c] and are marked [correct] or [misplaced] are
    exactly as many as the smaller of the occurrences of [c] in the guess
    and in the target. *)
Theorem checkGuess_marks_exactly_min (guess target : string) (c : ascii) :
  String.length guess <= wordLength gameConfig ->
  markedPositions c (split guess) (checkGuess guess target)
  = Nat.min (occurrences c (split guess)) (occurrences c (split target)).
Proof.
  intros Hlen.
  destruct (checkGuess_exact guess target Hlen) as (Hinv & [_ Hcnt] & Hdone).
  pose proof Hinv as [_ Hr _ _ _ _ _ _].
  fold (checkGuess guess target) in Hr, Hcnt.
  pose proof (markedPositions_le c (split guess) (checkGuess guess target)) as Hle.
  specialize (Hcnt c).
  destruct (markedPositions_all_or_unmarked c (split guess) (checkGuess guess target))
    as [Hall|(j & r & Hj & Hrj & Hm)].
  { rewrite Hr, split_length. done. }
  { lia. }
  pose proof (lookup_lt_Some _ _ _ Hj) as Hjlt. rewrite split_length in Hjlt.
  pose proof Hinv as [_ _ Hs _ _ _ _ _]. fold (checkGuess guess target) in Hs.
  destruct (Hs j) as [s Hst]; [lia|]. rewrite Hst in Hrj. simplify_eq.
  destruct s; try discriminate.
  rewrite (Hdone j c Hjlt Hj Hst) in Hcnt. lia.
Qed.

Lemma checkGuess_marks_exactly_min_witness :
  markedPositions "e" (split "eerie") (checkGuess "eerie" "serve")
  = Nat.min (occurrences "e"%char (split "eerie")) (occurrences "e"%char (split "serve")).
Proof.
  apply (checkGuess_marks_exactly_min "eerie" "serve" "e"%char). vm_compute. lia.
Defined.

(** X6: a guess shorter than five letters, the empty guess included, still
    gets five statuses, and those beyond its last letter are [wrong]. *)
Theorem checkGuess_short_guess (guess target : string) :
  String.length guess <= wordLength gameConfig ->
  exists statuses : list LetterStatus,
    checkGuess guess target = Some <$> statuses /\
    length statuses = wordLength gameConfig /\
    forall j, String.length guess <= j -> j < wordLength gameConfig ->
      statuses !! j = Some wrong.
Proof.
  intros Hlen.
  destruct (checkGuess_exact guess target Hlen) as (Hinv & [Htail _] & _).
  pose proof Hinv as [_ Hr Hs _ _ _ _ _].
  fold (checkGuess guess target) in Hr, Hs, Htail.
  destruct (all_statuses (checkGuess guess target)) as (ss & Hss & Hlenss).
  { intros j Hj. apply Hs. lia. }
  exists ss. split; [done|]. split; [by rewrite Hlenss|].
  intros j Hjg Hj. rewrite split_length in Htail.
  specialize (Htail j Hjg Hj). rewrite Hss, list_lookup_fmap in Htail.
  destruct (ss !! j); by simplify_eq/=.
Qed.

Lemma checkGuess_short_guess_witness :
  exists statuses : list LetterStatus,
    checkGuess "" "crane" = Some <$> statuses /\
    length statuses = wordLength gameConfig /\
    forall j, String.length "" <= j -> j < wordLength gameConfig ->
      statuses !! j = Some wrong.
Proof. apply (checkGuess_short_guess "" "crane"). vm_compute. lia. Defined.

(** ** The word source: case and length *)

Lemma lower_char_not_upper (c : ascii) : is_upper (lower_char c) = false.
Proof. destruct c as [[] [] [] [] [] [] [] []]; reflexivity. Qed.

Lemma lower_char_upper_char (c : ascii) : lower_char (upper_char c) = lower_char c.
Proof. destruct c as [[] [] [] [] [] [] [] []]; reflexivity. Qed.

Lemma lower_char_idem (c : ascii) : lower_char (lower_char c) = lower_char c.
Proof. destruct c as [[] [] [] [] [] [] [] []]; reflexivity. Qed.

Lemma lower_char_lower (c : ascii) : is_lower c = true -> lower_char c = c.
Proof. destruct c as [[] [] [] [] [] [] [] []]; vm_compute; intros; congruence. Qed.

Lemma toLowerCase_length (s : string) : String.length (toLowerCase s) = String.length s.
Proof. unfold toLowerCase. induction s; simpl; congruence. Qed.

Lemma toLowerCase_toUpperCase (s : string) : toLowerCase (toUpperCase s) = toLowerCase s.
Proof.
  unfold toLowerCase, toUpperCase. induction s as [|c s IH]; simpl; [done|].
  by rewrite lower_char_upper_char, IH.
Qed.

Lemma toLowerCase_idem (s : string) : toLowerCase (toLowerCase s) = toLowerCase s.
Proof.
  unfold toLowerCase. induction s as [|c s IH]; simpl; [done|].
  by rewrite lower_char_idem, IH.
Qed.

Lemma toLowerCase_no_upper (s : string) :
  Forall (fun c => is_upper c = false) (split (toLowerCase s)).
Proof.
  unfold toLowerCase, split. induction s as [|c s IH]; simpl; constructor; [|done].
  apply lower_char_not_upper.
Qed.

Lemma isWordValid_length (word : string) :
  isWordValid word = true -> String.length word = wordLength gameConfig.
Proof.
  unfold isWordValid. intros Hin%includes_In.
  pose proof fallbackWords_five_letters as Hall. rewrite Forall_forall in Hall.
  destruct (Hall _ Hin) as [Hlen _]. by rewrite toLowerCase_length in Hlen.
Qed.

(** X7: every word that [isWordValid] accepts has exactly five letters, so
    an accepted guess always gets five statuses from [checkGuess], whatever
    the target. *)
Theorem isWordValid_five_letters (word target : string) :
  isWordValid word = true ->
  String.length word = 5 /\
  exists statuses : list LetterStatus,
    checkGuess word target = Some <$> statuses /\ length statuses = 5.
Proof.
  intros Hlen%isWordValid_length. split; [done|].
  destruct (checkGuess_inv word target) as [[_ Hr Hs _ _ _ _ _] _]; [lia|].
  fold (checkGuess word target) in Hr, Hs.
  destruct (all_statuses (checkGuess word target)) as (ss & Hss & Hlenss).
  { intros j Hj. apply Hs. lia. }
  exists ss. split; [done|]. by rewrite Hlenss.
Qed.

Lemma isWordValid_five_letters_witness :
  String.length "BLAZE" = 5 /\
  exists statuses : list LetterStatus,
    checkGuess "BLAZE" "banana" = Some <$> statuses /\ length statuses = 5.
Proof. apply (isWordValid_five_letters "BLAZE" "banana"). reflexivity. Defined.

(** X8: on a word of ASCII characters, [isWordValid] gives the same answer
    on the word, on its uppercase form and on its lowercase form.  (Beyond
    ASCII the code does not: the uppercase form of a word with U+017F in
    place of s can be accepted while the word is not.) *)
Theorem isWordValid_ignores_case (word : string) :
  is_ascii word = true ->
  isWordValid (toUpperCase word) = isWordValid word /\
  isWordValid (toLowerCase word) = isWordValid word.
Proof.
  intros _. unfold isWordValid.
  by rewrite toLowerCase_toUpperCase, toLowerCase_idem.
Qed.

Lemma isWordValid_ignores_case_witness :
  is_ascii "Crane" = true /\
  isWordValid (toUpperCase "Crane") = isWordValid "Crane" /\
  isWordValid (toLowerCase "Crane") = isWordValid "Crane" /\
  isWordValid "Crane" = true.
Proof.
  split; [reflexivity|].
  destruct (isWordValid_ignores_case "Crane" eq_refl) as [Hup Hlow].
  split; [exact Hup|]. split; [exact Hlow|reflexivity].
Defined.

(** X9: the word [getRandomWord] returns never holds an uppercase letter,
    whether it comes from the remote call or from the fallback list. *)
Theorem getRandomWord_no_uppercase (env : Env) :
  exists w, getRandomWord env = Some w /\
            Forall (fun c => is_upper c = false) (split w).
Proof.
  unfold getRandomWord.
  destruct (getRandomWord_try (remote env)) as [w|] eqn:Htry.
  - exists w. split; [done|].
    unfold getRandomWord_try in Htry.
    repeat case_match; simplify_eq. apply toLowerCase_no_upper.
  - destruct (fallback_choice (random env)) as (w & Hw & Hin).
    exists w. split; [done|]. revert Hin. clear. intros Hin.
    repeat (apply elem_of_cons in Hin as [->|Hin]; [by repeat constructor|]).
    by apply elem_of_nil in Hin.
Qed.

(** ** The session: every keydown event is one step *)

(** In a world of a session with the listener registered, the handler
    returns, and what it does is one [KeyStep]. *)
Lemma handleKeydown_step (key : string) (w : World) :
  WorldInv w ->
  listening w = true ->
  exists w', handleKeydown key w = Return tt w' /\ KeyStep w w'.
Proof.
  intros [Hs [t Ht] _ Halive _] Hon. specialize (Halive Hon).
  destruct (SessionInv_row _ Hs Halive) as (r & Hr & Hlen & _).
  pose proof Hs as [_ _ _ Hcursor _].
  unfold handleKeydown.
  destruct (isLetter key) eqn:Hletter.
  { destruct (decide (currentCol (gameState w) < cols gameConfig)) as [Hcol|Hcol].
    - rewrite (addLetter_stored w key r) by done. eexists. split; [done|].
      by apply (step_letter w key r).
    - rewrite addLetter_full by lia. eexists. split; [done|]. apply step_none. }
  case_bool_decide as Hback.
  { destruct (decide (currentCol (gameState w) = 0)) as [Hcol|Hcol].
    - rewrite removeLetter_start by done. eexists. split; [done|]. apply step_none.
    - rewrite (removeLetter_cleared w r) by done. eexists. split; [done|].
      by apply (step_backspace w r). }
  case_bool_decide as Henter; [|eexists; split; [done|apply step_none]].
  destruct (decide (currentCol (gameState w) < cols gameConfig)) as [Hcol|Hcol].
  { rewrite (submitGuess_incomplete w r) by done. eexists. split; [done|].
    by apply (step_incomplete w r). }
  apply Nat.nlt_ge in Hcol.
  destruct (isWordValid (join r)) eqn:Hvalid.
  2:{ rewrite (submitGuess_invalid w r) by done. eexists. split; [done|].
      by apply (step_invalid w r). }
  destruct (decide (join r = t)) as [<-|Hne].
  { rewrite (submitGuess_win w r) by done. eexists. split; [done|]. by apply (step_win w r). }
  destruct (decide (currentRow (gameState w) + 1 < rows gameConfig)) as [Hrow|Hrow].
  - rewrite (submitGuess_next w r t) by done. eexists. split; [done|].
    by apply (step_next w r t).
  - rewrite (submitGuess_lost w r t) by (done || lia). eexists. split; [done|].
    apply (step_lost w r t); (done || lia).
Qed.

Lemma keydown_step (key : string) (w : World) :
  WorldInv w -> KeyStep w (keydown w key).
Proof.
  intros Hinv. unfold keydown. destruct (listening w) eqn:Hon; [|apply step_none].
  destruct (handleKeydown_step key w Hinv Hon) as (w' & -> & Hstep). done.
Qed.

Lemma getRandomWord_is_Some (env : Env) : exists t, getRandomWord env = Some t.
Proof.
  unfold getRandomWord. destruct (getRandomWord_try (remote env)); [eauto|].
  destruct (fallback_choice (random env)) as (w & Hw & _). eauto.
Qed.

Lemma toLowerCase_letter_slot (letter : string) :
  isLetter letter = true -> letter_slot (Some (toLowerCase letter)).
Proof.
  intros (c & -> & Hc)%isLetter_single. exists (lower_char c).
  split; [by apply lower_char_is_lower|done].
Qed.

Lemma rowShakes_in_grid row :
  row < rows gameConfig -> Forall request_in_grid (rowShakes row).
Proof.
  intros Hrow. apply Forall_forall. intros q (c & Hq & Hc)%list_elem_of_bind.
  apply list_elem_of_singleton in Hq as ->.
  apply elem_of_seq in Hc. simpl in *. lia.
Qed.

Lemma missingCellShakes_in_grid row r :
  row < rows gameConfig -> Forall request_in_grid (missingCellShakes row r).
Proof.
  intros Hrow. apply Forall_forall. intros q (c & Hq & Hc)%list_elem_of_bind.
  destruct (falsy (r !! c)); [|by apply elem_of_nil in Hq].
  apply list_elem_of_singleton in Hq as ->.
  apply elem_of_seq in Hc. simpl in *. lia.
Qed.

Lemma revealRequests_in_grid row results :
  row < rows gameConfig ->
  length results <= cols gameConfig ->
  Forall request_in_grid (revealRequests row results).
Proof.
  intros Hrow Hlen. apply Forall_forall. intros q (p & Hq & Hp)%list_elem_of_bind.
  apply list_elem_of_lookup in Hp as [i Hi].
  rewrite list_lookup_imap in Hi.
  destruct (results !! i) as [x|] eqn:Hx; simplify_eq/=.
  apply lookup_lt_Some in Hx.
  destruct x; [|by apply elem_of_nil in Hq].
  apply list_elem_of_singleton in Hq as ->. simpl in *. lia.
Qed.

Lemma accepted_results_length (guess target : string) :
  isWordValid guess = true ->
  length (checkGuess guess target) = cols gameConfig.
Proof.
  intros Hlen%isWordValid_length.
  destruct (checkGuess_inv guess target) as [[_ Hr _ _ _ _ _ _] _]; [lia|].
  exact Hr.
Qed.

(** A step keeps what holds of the worlds of a session. *)
Lemma KeyStep_inv (w w' : World) :
  WorldInv w -> KeyStep w w' -> WorldInv w'.
Proof.
  intros Hinv Hstep. pose proof Hinv as [Hs Ht Hfill Halive Hreq].
  pose proof Hs as [Hrows Hcols Hslots Hcursor Hatt].
  destruct Hstep as [ | letter r Hletter Hcol Hrow Hr | r Hcol Hr | r Hcol Hr
                    | r Hcol Hr Hvalid | r Hcol Hr Hvalid Htw
                    | r t Hcol Hr Hvalid Htw Hne Hrow
                    | r t Hcol Hr Hvalid Htw Hne Hrow ]; [done|..].
  - (* a letter *)
    pose proof (Forall_lookup_1 _ _ _ _ Hcols Hr) as Hlen. cbv beta in Hlen.
    constructor; cbn [gameState with_state add_requests listening requests].
    + apply SessionInv_write; [done|done|done|by apply toLowerCase_letter_ok|lia].
    + done.
    + cbn [grid currentRow currentCol]. rewrite array_set_in_range by lia.
      intros i r' j s Hi Hj.
      destruct (decide (i = currentRow (gameState w))) as [->|Hi'].
      * rewrite list_lookup_insert_eq in Hi by lia. simplify_eq.
        destruct (decide (j = currentCol (gameState w))) as [->|Hj'].
        -- rewrite list_lookup_insert_eq in Hj by lia. simplify_eq.
           unfold filled; simpl. split; [intros _; by apply toLowerCase_letter_slot|lia].
        -- rewrite list_lookup_insert_ne in Hj by done.
           destruct (Hfill _ _ _ _ Hr Hj) as [Hf He].
           unfold filled in *; simpl in *. split; intros ?; [apply Hf|apply He]; lia.
      * rewrite list_lookup_insert_ne in Hi by done.
        destruct (Hfill _ _ _ _ Hi Hj) as [Hf He].
        unfold filled in *; simpl in *. split; intros ?; [apply Hf|apply He]; lia.
    + done.
    + apply Forall_app. split; [done|]. apply Forall_singleton.
      unfold request_in_grid. lia.
  - (* Backspace *)
    pose proof (Forall_lookup_1 _ _ _ _ Hcols Hr) as Hlen. cbv beta in Hlen.
    pose proof (lookup_lt_Some _ _ _ Hr) as Hrow.
    constructor; cbn [gameState with_state add_requests listening requests].
    + apply SessionInv_write; [done|done|lia|by left|lia].
    + done.
    + cbn [grid currentRow currentCol]. rewrite array_set_in_range by lia.
      intros i r' j s Hi Hj.
      destruct (decide (i = currentRow (gameState w))) as [->|Hi'].
      * rewrite list_lookup_insert_eq in Hi by lia. simplify_eq.
        destruct (decide (j = currentCol (gameState w) - 1)) as [->|Hj'].
        -- rewrite list_lookup_insert_eq in Hj by lia. simplify_eq.
           unfold filled; simpl. split; [lia|done].
        -- rewrite list_lookup_insert_ne in Hj by done.
           destruct (Hfill _ _ _ _ Hr Hj) as [Hf He].
           unfold filled in *; simpl in *. split; intros ?; [apply Hf|apply He]; lia.
      * rewrite list_lookup_insert_ne in Hi by done.
        destruct (Hfill _ _ _ _ Hi Hj) as [Hf He].
        unfold filled in *; simpl in *. split; intros ?; [apply Hf|apply He]; lia.
    + done.
    + apply Forall_app. split; [done|]. apply Forall_singleton.
      unfold request_in_grid. lia.
  - (* incomplete row *)
    pose proof (lookup_lt_Some _ _ _ Hr) as Hrow.
    constructor; cbn [gameState add_requests listening requests]; [done..|].
    apply Forall_app. split; [done|]. apply missingCellShakes_in_grid. lia.
  - (* invalid word *)
    pose proof (lookup_lt_Some _ _ _ Hr) as Hrow.
    constructor; cbn [gameState add_requests listening requests]; [done..|].
    apply Forall_app. split; [done|]. apply Forall_app.
    split; [apply rowShakes_in_grid; lia|]. by repeat constructor.
  - (* won *)
    pose proof (lookup_lt_Some _ _ _ Hr) as Hrow.
    constructor; cbn [gameState stop_listening add_requests listening requests];
      [done..| | ].
    + done.
    + apply Forall_app. split; [done|]. apply Forall_app. split; [|by repeat constructor].
      apply revealRequests_in_grid; [lia|]. by rewrite accepted_results_length.
  - (* next attempt *)
    pose proof (lookup_lt_Some _ _ _ Hr) as Hrow'.
    constructor; cbn [gameState with_state add_requests listening requests].
    + constructor; simpl in *; [done..|lia|lia].
    + done.
    + intros i r' j s Hi Hj. cbn [next_attempt grid] in Hi.
      pose proof (Forall_lookup_1 _ _ _ _ Hcols Hi) as Hlen. cbv beta in Hlen.
      pose proof (lookup_lt_Some _ _ _ Hj) as Hjlt.
      destruct (Hfill _ _ _ _ Hi Hj) as [Hf He].
      unfold filled in *; simpl in *. split; intros ?; [apply Hf|apply He]; lia.
    + intros _. simpl in *. lia.
    + apply Forall_app. split; [done|].
      apply revealRequests_in_grid; [lia|]. by rewrite accepted_results_length.
  - (* lost *)
    pose proof (lookup_lt_Some _ _ _ Hr) as Hrow'.
    constructor;
      cbn [gameState stop_listening with_state add_requests listening requests].
    + constructor; simpl in *; [done..|lia|lia].
    + done.
    + intros i r' j s Hi Hj. cbn [next_attempt grid] in Hi.
      pose proof (Forall_lookup_1 _ _ _ _ Hcols Hi) as Hlen. cbv beta in Hlen.
      pose proof (lookup_lt_Some _ _ _ Hj) as Hjlt.
      destruct (Hfill _ _ _ _ Hi Hj) as [Hf He].
      unfold filled in *; simpl in *. split; intros ?; [apply Hf|apply He]; lia.
    + done.
    + apply Forall_app. split; [done|]. apply Forall_app. split; [|by repeat constructor].
      apply revealRequests_in_grid; [lia|]. by rewrite accepted_results_length.
Qed.

Lemma startGame_eq (env : Env) :
  startGame env =
  {| gameState :=
       {| targetWord := getRandomWord env; currentRow := 0; currentCol := 0;
          grid := replicate (rows gameConfig) (replicate (cols gameConfig) (Some "")) |};
     listening := true;
     requests := [] |}.
Proof. done. Qed.

Lemma startGame_inv (env : Env) : WorldInv (startGame env).
Proof.
  constructor.
  - apply (initialiseGame_inv env loaded).
  - rewrite startGame_eq. apply getRandomWord_is_Some.
  - rewrite startGame_eq. cbn [gameState grid]. intros i r j s Hi Hj.
    apply lookup_replicate in Hi as [-> _]. apply lookup_replicate in Hj as [-> _].
    unfold filled; simpl. split; [lia|done].
  - intros _. rewrite startGame_eq. simpl. lia.
  - rewrite startGame_eq. constructor.
Qed.

(** Every world a session reaches from its start by keydown events. *)
Lemma keydowns_inv (w : World) (keys : list string) :
  WorldInv w -> WorldInv (keydowns w keys).
Proof.
  unfold keydowns. revert w. induction keys as [|key keys IH]; intros w Hw; [done|].
  simpl. apply IH. apply (KeyStep_inv w); [done|]. by apply keydown_step.
Qed.

Lemma reachable_inv (env : Env) (keys : list string) :
  WorldInv (keydowns (startGame env) keys).
Proof. apply keydowns_inv, startGame_inv. Qed.

(** ** The session: what every reachable world satisfies *)

(** X10: in every world a session reaches, each cell before the cursor
    (all cells of the submitted rows and the cells of the current row left
    of the cursor) holds one lowercase letter, and every other cell holds
    the empty string. *)
Theorem reachable_grid_layout (env : Env) (keys : list string) (i j : nat) r s :
  let g := gameState (keydowns (startGame env) keys) in
  grid g !! i = Some r ->
  r !! j = Some s ->
  (filled g i j -> letter_slot s) /\ (~ filled g i j -> s = Some "").
Proof.
  intros g Hi Hj. subst g.
  destruct (reachable_inv env keys) as [_ _ Hfill _ _]. by apply (Hfill i r j s).
Qed.

Lemma reachable_grid_layout_witness :
  let g := gameState (keydowns (startGame offline_crane)
                        (typed "grape" ++ ["Enter"] ++ typed "fl")) in
  (filled g 1 1 -> letter_slot (Some "l")) /\ (~ filled g 1 1 -> Some "l" = Some "").
Proof.
  intros g.
  apply (reachable_grid_layout offline_crane (typed "grape" ++ ["Enter"] ++ typed "fl")
           1 1 (Some <$> ["f"; "l"; ""; ""; ""]) (Some "l")); reflexivity.
Defined.

(** X11: in a world a session reaches, a keydown handler that runs never
    throws: whatever the key, [handleKeydown] returns. *)
Theorem reachable_handler_returns (env : Env) (keys : list string) (key : string) :
  let w := keydowns (startGame env) keys in
  listening w = true ->
  exists w', handleKeydown key w = Return tt w'.
Proof.
  intros w Hon.
  destruct (handleKeydown_step key w (reachable_inv env keys) Hon) as (w' & Hw' & _).
  eauto.
Qed.

Lemma reachable_handler_returns_witness :
  let w := keydowns (startGame remote_house) (typed "ab" ++ ["Backspace"; "Enter"]) in
  exists w', handleKeydown "Enter" w = Return tt w'.
Proof.
  intros w.
  apply (reachable_handler_returns remote_house (typed "ab" ++ ["Backspace"; "Enter"])
           "Enter").
  reflexivity.
Defined.

(** X12: a session has at most [rows] attempts: the attempt counter never
    exceeds [rows], the listener is registered only while an attempt is
    left, and once the listener is removed no key changes anything. *)
Theorem reachable_attempts_bounded (env : Env) (keys : list string) :
  let w := keydowns (startGame env) keys in
  currentRow (gameState w) <= rows gameConfig /\
  (listening w = true -> currentRow (gameState w) < rows gameConfig) /\
  (listening w = false -> forall keys', keydowns w keys' = w).
Proof.
  intros w. destruct (reachable_inv env keys) as [[_ _ _ _ Hatt] _ _ Halive _].
  split; [done|]. split; [done|].
  intros Hoff keys'. by apply keydowns_not_listening.
Qed.

Lemma reachable_attempts_bounded_witness :
  let w := keydowns (startGame offline_crane)
             (concat (replicate 6 (typed "apple" ++ ["Enter"]))) in
  currentRow (gameState w) = rows gameConfig /\
  listening w = false /\
  forall keys', keydowns w keys' = w.
Proof.
  intros w. split; [reflexivity|]. split; [reflexivity|].
  apply (proj2 (proj2 (reachable_attempts_bounded offline_crane
           (concat (replicate 6 (typed "apple" ++ ["Enter"])))))).
  reflexivity.
Defined.

Lemma KeyStep_frame (w w' : World) :
  KeyStep w w' ->
  targetWord (gameState w') = targetWord (gameState w) /\
  currentRow (gameState w) <= currentRow (gameState w') /\
  (forall i, i < currentRow (gameState w) ->
     grid (gameState w') !! i = grid (gameState w) !! i).
Proof.
  intros []; simpl; (split; [done|]); (split; [lia|]); try done;
    intros i Hi; by rewrite list_lookup_insert_ne by lia.
Qed.

(** X13: along a session the target word never changes, the attempt counter
    never decreases, and a row that was submitted is never changed again. *)
Theorem submitted_rows_are_frozen (env : Env) (keys keys' : list string) :
  let w := keydowns (startGame env) keys in
  let w' := keydowns w keys' in
  targetWord (gameState w') = targetWord (gameState w) /\
  currentRow (gameState w) <= currentRow (gameState w') /\
  (forall i, i < currentRow (gameState w) ->
     grid (gameState w') !! i = grid (gameState w) !! i).
Proof.
  intros w w'. subst w'. pose proof (reachable_inv env keys) as Hw. fold w in Hw.
  clearbody w. revert w Hw. unfold keydowns.
  induction keys' as [|key keys' IH]; intros w Hw; [done|]. simpl.
  pose proof (keydown_step key w Hw) as Hstep.
  destruct (KeyStep_frame _ _ Hstep) as (Ht & Hrow & Hgrid).
  destruct (IH (keydown w key) (KeyStep_inv _ _ Hw Hstep)) as (Ht' & Hrow' & Hgrid').
  split; [congruence|]. split; [lia|].
  intros i Hi. rewrite Hgrid' by lia. by apply Hgrid.
Qed.

Lemma submitted_rows_are_frozen_witness :
  let w := keydowns (startGame offline_crane) (typed "grape" ++ ["Enter"]) in
  let w' := keydowns w (["Backspace"] ++ typed "bl" ++ ["Enter"; "Backspace"]) in
  grid (gameState w') !! 0 = Some (Some <$> typed "grape").
Proof.
  cbv zeta.
  rewrite (proj2 (proj2 (submitted_rows_are_frozen offline_crane
             (typed "grape" ++ ["Enter"])
             (["Backspace"] ++ typed "bl" ++ ["Enter"; "Backspace"]))) 0);
    [reflexivity|vm_compute; lia].
Defined.

(** ** The session: typing, erasing and the end of the game *)

Lemma keydown_letter (w : World) (key : string) r :
  listening w = true ->
  isLetter key = true ->
  currentCol (gameState w) < cols gameConfig ->
  currentRow (gameState w) < rows gameConfig ->
  grid (gameState w) !! currentRow (gameState w) = Some r ->
  keydown w key =
  with_state
    {| targetWord := targetWord (gameState w);
       currentRow := currentRow (gameState w);
       currentCol := currentCol (gameState w) + 1;
       grid := <[currentRow (gameState w) :=
                  array_set r (currentCol (gameState w)) (toLowerCase key)]>
                 (grid (gameState w)) |}
    (add_requests [UpdateCell (currentRow (gameState w)) (currentCol (gameState w)) key] w).
Proof.
  intros Hon Hkey Hcol Hrow Hr. unfold keydown, handleKeydown.
  by rewrite Hon, Hkey, (addLetter_stored w key r).
Qed.

Lemma keydown_backspace (w : World) r :
  listening w = true ->
  currentCol (gameState w) <> 0 ->
  grid (gameState w) !! currentRow (gameState w) = Some r ->
  keydown w "Backspace" =
  add_requests [UpdateCell (currentRow (gameState w)) (currentCol (gameState w) - 1) ""]
    (with_state
       {| targetWord := targetWord (gameState w);
          currentRow := currentRow (gameState w);
          currentCol := currentCol (gameState w) - 1;
          grid := <[currentRow (gameState w) :=
                     array_set r (currentCol (gameState w) - 1) ""]>
                    (grid (gameState w)) |}
       w).
Proof.
  intros Hon Hcol Hr. unfold keydown, handleKeydown. rewrite Hon.
  change (isLetter "Backspace") with false. cbv iota.
  rewrite bool_decide_true by done. by rewrite (removeLetter_cleared w r).
Qed.

Lemma keydowns_app (w : World) (keys keys' : list string) :
  keydowns w (keys ++ keys') = keydowns (keydowns w keys) keys'.
Proof. unfold keydowns. apply foldl_app. Qed.

(** Typing letters into the current row. *)
Lemma keydowns_letters (keys : list string) (w : World) r :
  WorldInv w ->
  listening w = true ->
  Forall (fun key => isLetter key = true) keys ->
  currentCol (gameState w) + length keys <= cols gameConfig ->
  grid (gameState w) !! currentRow (gameState w) = Some r ->
  let g := gameState w in
  let w' := keydowns w keys in
  listening w' = true /\
  gameState w' =
  {| targetWord := targetWord g;
     currentRow := currentRow g;
     currentCol := currentCol g + length keys;
     grid := <[currentRow g :=
                take (currentCol g) r
                ++ ((fun key => Some (toLowerCase key)) <$> keys)
                ++ drop (currentCol g + length keys) r]> (grid g) |}.
Proof.
  revert w r. induction keys as [|key keys IH]; intros w r Hinv Hon Hkeys Hroom Hr g w'.
  - subst g w'. split; [done|]. simpl. rewrite Nat.add_0_r, take_drop.
    rewrite list_insert_id by done. by destruct (gameState w).
  - subst g w'. apply Forall_cons in Hkeys as [Hkey Hkeys]. cbn [length] in Hroom.
    pose proof Hinv as [[Hrows Hcols _ _ _] _ _ Halive _].
    pose proof (Forall_lookup_1 _ _ _ _ Hcols Hr) as Hlen. cbv beta in Hlen.
    pose proof (lookup_lt_Some _ _ _ Hr) as Hrow.
    change (keydowns w (key :: keys)) with (keydowns (keydown w key) keys).
    pose proof (KeyStep_inv _ _ Hinv (keydown_step key w Hinv)) as Hinv1.
    assert (Hk := keydown_letter w key r Hon Hkey ltac:(lia) ltac:(lia) Hr).
    rewrite array_set_in_range in Hk by lia.
    rewrite Hk in Hinv1 |- *. clear Hk.
    set (r1 := <[currentCol (gameState w) := Some (toLowerCase key)]> r) in *.
    destruct (IH _ r1 Hinv1) as [Hon' Hst]; [done|done|cbn [gameState with_state currentCol]; lia|..].
    { simpl. by rewrite list_lookup_insert_eq by lia. }
    split; [done|]. rewrite Hst. simpl. f_equal.
    + lia.
    + rewrite list_insert_insert_eq. f_equal.
      subst r1. rewrite Nat.add_1_r.
      rewrite (take_S_r _ _ (Some (toLowerCase key)))
        by (by rewrite list_lookup_insert_eq by lia).
      rewrite take_insert_ge by lia. rewrite drop_insert_lt by lia.
      rewrite <- app_assoc.
      replace (S (currentCol (gameState w)) + length keys)
        with (currentCol (gameState w) + S (length keys)) by lia.
      done.
Qed.

(** X14: in a world a session reaches, with the listener registered,
    typing letter keys that fit into the current row stores their
    lowercase forms from the cursor on, moves the cursor by their number
    and changes nothing else of the session state. *)
Theorem typing_fills_row (env : Env) (keys0 keys : list string) r :
  let w := keydowns (startGame env) keys0 in
  let g := gameState w in
  listening w = true ->
  Forall (fun key => isLetter key = true) keys ->
  currentCol g + length keys <= cols gameConfig ->
  grid g !! currentRow g = Some r ->
  gameState (keydowns w keys) =
  {| targetWord := targetWord g;
     currentRow := currentRow g;
     currentCol := currentCol g + length keys;
     grid := <[currentRow g :=
                take (currentCol g) r
                ++ ((fun key => Some (toLowerCase key)) <$> keys)
                ++ drop (currentCol g + length keys) r]> (grid g) |}.
Proof.
  intros w g Hon Hkeys Hroom Hr.
  by destruct (keydowns_letters keys w r (reachable_inv env keys0) Hon Hkeys Hroom Hr).
Qed.

Lemma typing_fills_row_witness :
  let w := keydowns (startGame offline_crane) (typed "b") in
  grid (gameState (keydowns w ["L"; "a"; "Z"])) !! 0
  = Some (Some <$> ["b"; "l"; "a"; "z"; ""]).
Proof.
  cbv zeta.
  rewrite (typing_fills_row offline_crane (typed "b") ["L"; "a"; "Z"]
             (Some <$> ["b"; ""; ""; ""; ""]));
    [reflexivity|reflexivity|by repeat constructor|vm_compute; lia|reflexivity].
Defined.

(** X15: in a world a session reaches, with the listener registered and
    room in the current row, a letter key followed by Backspace leaves the
    session state as it was. *)
Theorem letter_then_backspace_restores (env : Env) (keys : list string) (key : string) :
  let w := keydowns (startGame env) keys in
  listening w = true ->
  isLetter key = true ->
  currentCol (gameState w) < cols gameConfig ->
  gameState (keydowns w [key; "Backspace"]) = gameState w.
Proof.
  intros w Hon Hkey Hcol.
  pose proof (reachable_inv env keys) as Hinv. fold w in Hinv.
  pose proof Hinv as [Hs _ Hfill Halive _]. specialize (Halive Hon).
  destruct (SessionInv_row _ Hs Halive) as (r & Hr & Hlen & _).
  pose proof (lookup_lt_Some _ _ _ Hr) as Hrow.
  assert (Hempty : r !! currentCol (gameState w) = Some (Some "")).
  { destruct (lookup_lt_is_Some_2 r (currentCol (gameState w))) as [s Hs']; [lia|].
    destruct (Hfill _ _ _ _ Hr Hs') as [_ He]. rewrite Hs'. f_equal. apply He.
    unfold filled. lia. }
  change (keydowns w [key; "Backspace"]) with (keydown (keydown w key) "Backspace").
  rewrite (keydown_letter w key r) by done.
  rewrite array_set_in_range by lia.
  erewrite keydown_backspace; [|done|cbn [gameState with_state currentCol]; lia|].
  2:{ cbn [gameState with_state grid currentRow].
      by rewrite list_lookup_insert_eq by lia. }
  cbn [gameState with_state add_requests targetWord currentRow currentCol grid].
  rewrite array_set_in_range by (rewrite length_insert; lia).
  rewrite list_insert_insert_eq.
  replace (currentCol (gameState w) + 1 - 1) with (currentCol (gameState w)) by lia.
  rewrite list_insert_insert_eq.
  rewrite (list_insert_id r) by done. rewrite list_insert_id by done.
  by destruct (gameState w).
Qed.

Lemma letter_then_backspace_restores_witness :
  let w := keydowns (startGame offline_crane) (typed "cr") in
  gameState (keydowns w ["A"; "Backspace"]) = gameState w.
Proof.
  apply (letter_then_backspace_restores offline_crane (typed "cr") "A");
    [reflexivity|reflexivity|vm_compute; lia].
Defined.

(** X16: an accepted guess that is not the target, submitted on the last
    attempt, ends the game as lost: the statuses are revealed, the message
    names the target in uppercase, the attempt counter reaches [rows], the
    listener is removed and no later key changes anything. *)
Theorem last_attempt_miss_loses (w : World) (r : list (option string)) (t : string) :
  let g := gameState w in
  cols gameConfig <= currentCol g ->
  grid g !! currentRow g = Some r ->
  isWordValid (join r) = true ->
  targetWord g = Some t ->
  join r <> t ->
  currentRow g + 1 = rows gameConfig ->
  exists w',
    submitGuess w = Return tt w' /\
    gameState w' = next_attempt g /\
    currentRow (gameState w') = rows gameConfig /\
    listening w' = false /\
    requests w' =
      requests w ++ revealRequests (currentRow g) (checkGuess (join r) t)
                 ++ [Message ("Out of attempts! The word was " +:+ toUpperCase t)] /\
    (forall keys, keydowns w' keys = w').
Proof.
  intros g Hcol Hr Hvalid Ht Hne Hrow. unfold g in *. clear g. eexists.
  split; [apply (submitGuess_lost w r t); (done || lia)|].
  split; [done|]. split; [simpl in *; lia|]. split; [done|]. split; [done|].
  intros keys. by apply keydowns_not_listening.
Qed.

Lemma last_attempt_miss_loses_witness :
  let w := keydowns (startGame offline_crane)
             (concat (replicate 5 (typed "apple" ++ ["Enter"])) ++ typed "blaze") in
  exists w',
    submitGuess w = Return tt w' /\
    currentRow (gameState w') = rows gameConfig /\
    listening w' = false /\
    last (requests w') = Some (Message "Out of attempts! The word was CRANE").
Proof.
  intros w.
  destruct (last_attempt_miss_loses w (Some <$> typed "blaze") "crane")
    as (w' & H1 & _ & H3 & H4 & H5 & _);
    [vm_compute; lia|reflexivity|reflexivity|reflexivity|discriminate|reflexivity|].
  exists w'. split; [exact H1|]. split; [exact H3|]. split; [exact H4|].
  rewrite H5, !app_assoc. apply last_snoc.
Defined.

(** ** The session: which games can be won *)

Lemma toLowerCase_append (a b : string) :
  toLowerCase (a +:+ b) = toLowerCase a +:+ toLowerCase b.
Proof. unfold toLowerCase. induction a as [|c a IH]; simpl; [done|]. by rewrite IH. Qed.

(** The word of a row of admissible slots is in lowercase already. *)
Lemma join_lowercase (r : list (option string)) :
  Forall slot_ok r -> toLowerCase (join r) = join r.
Proof.
  unfold join. induction 1 as [|slot r Hslot _ IH]; simpl; [done|].
  rewrite toLowerCase_append, IH. f_equal.
  destruct Hslot as [->|(c & Hc & ->)]; [done|].
  unfold toLowerCase. simpl. by rewrite lower_char_lower.
Qed.

Lemma rowShakes_no_message row text : Message text ∉ rowShakes row.
Proof.
  unfold rowShakes. intros (c & Hin & _)%list_elem_of_bind.
  apply list_elem_of_singleton in Hin. discriminate.
Qed.

Lemma KeyStep_no_win (w w' : World) :
  WorldInv w ->
  KeyStep w w' ->
  (forall t, targetWord (gameState w) = Some t -> t ∉ fallbackWords) ->
  Message win_message ∉ requests w ->
  Message win_message ∉ requests w'.
Proof.
  intros [[_ _ Hslots _ _] _ _ _ _] Hstep Htarget Hold.
  destruct Hstep as [ | letter r Hletter Hcol Hrow Hr | r Hcol Hr | r Hcol Hr
                    | r Hcol Hr Hvalid | r Hcol Hr Hvalid Htw
                    | r t Hcol Hr Hvalid Htw Hne Hrow
                    | r t Hcol Hr Hvalid Htw Hne Hrow ]; [done|..];
    cbn [requests add_requests stop_listening with_state];
    intros [H|H]%elem_of_app; try done.
  - apply list_elem_of_singleton in H. discriminate.
  - apply list_elem_of_singleton in H. discriminate.
  - by apply missingCellShakes_no_message in H.
  - apply elem_of_app in H as [H|H]; [by apply rowShakes_no_message in H|].
    apply list_elem_of_singleton in H. discriminate.
  - apply (Htarget (join r) Htw).
    rewrite <- (join_lowercase r) by exact (Forall_lookup_1 _ _ _ _ Hslots Hr).
    by apply includes_In.
  - by apply revealRequests_no_message in H.
  - apply elem_of_app in H as [H|H]; [by apply revealRequests_no_message in H|].
    apply list_elem_of_singleton in H. discriminate.
Qed.

(** X17: when the target word is not a word of the fallback list (it then
    came from the remote call), no sequence of keys ever wins the game:
    the winning message is never requested. *)
Theorem target_outside_fallback_never_won (env : Env) (keys : list string) :
  (forall t, getRandomWord env = Some t -> t ∉ fallbackWords) ->
  Message win_message ∉ requests (keydowns (startGame env) keys).
Proof.
  intros Htarget.
  cut (forall w, WorldInv w ->
         (forall t, targetWord (gameState w) = Some t -> t ∉ fallbackWords) ->
         Message win_message ∉ requests w ->
         Message win_message ∉ requests (keydowns w keys)).
  { intros Hall. apply Hall; [apply startGame_inv|done|].
    rewrite startGame_eq. apply not_elem_of_nil. }
  unfold keydowns. induction keys as [|key keys IH]; intros w Hinv Ht Hreq; [done|].
  simpl. pose proof (keydown_step key w Hinv) as Hstep.
  apply IH.
  - by apply (KeyStep_inv w).
  - destruct (KeyStep_frame _ _ Hstep) as [Hsame _]. by rewrite Hsame.
  - by apply (KeyStep_no_win w).
Qed.

Lemma target_outside_fallback_never_won_witness :
  Message win_message ∉
  requests (keydowns (startGame remote_house)
              (typed "house" ++ ["Enter"] ++ typed "crane" ++ ["Enter"])).
Proof.
  apply (target_outside_fallback_never_won remote_house).
  intros t [= <-] H.
  repeat (apply elem_of_cons in H as [H|H]; [discriminate|]).
  by apply elem_of_nil in H.
Defined.

Lemma fallback_word_typed (t : string) :
  t ∈ fallbackWords ->
  Forall (fun key => isLetter key = true) (typed t) /\
  length (typed t) = cols gameConfig /\
  join ((fun key => Some (toLowerCase key)) <$> typed t) = t /\
  isWordValid t = true.
Proof.
  intros Hin.
  repeat (apply elem_of_cons in Hin as [->|Hin];
          [split; [by repeat constructor|by repeat split]|]).
  by apply elem_of_nil in Hin.
Qed.

Lemma keydown_enter (w : World) :
  listening w = true -> keydown w "Enter" = world_of (submitGuess w).
Proof. intros Hon. unfold keydown. by rewrite Hon. Qed.

(** X18: when the target word is a word of the fallback list, the game can
    be won from every world a session reaches in which the listener is
    registered and the current row is empty: typing the target and
    pressing Enter requests the winning message and removes the
    listener. *)
Theorem fallback_target_can_be_won (env : Env) (keys : list string) (t : string) :
  let w := keydowns (startGame env) keys in
  listening w = true ->
  currentCol (gameState w) = 0 ->
  targetWord (gameState w) = Some t ->
  t ∈ fallbackWords ->
  let w' := keydowns w (typed t ++ ["Enter"]) in
  listening w' = false /\
  last (requests w') = Some (Message win_message) /\
  currentRow (gameState w') = currentRow (gameState w).
Proof.
  intros w Hon Hcol Ht Hin w'. subst w'.
  pose proof (reachable_inv env keys) as Hinv. fold w in Hinv.
  pose proof Hinv as [Hs _ _ Halive _]. specialize (Halive Hon).
  destruct (SessionInv_row _ Hs Halive) as (r & Hr & Hlen & _).
  pose proof (lookup_lt_Some _ _ _ Hr) as Hrow.
  destruct (fallback_word_typed t Hin) as (Hkeys & Hfive & Hjoin & Hvalid).
  destruct (keydowns_letters (typed t) w r Hinv Hon Hkeys) as [Hon5 Hst]; [lia|done|].
  rewrite Hcol, Hfive, take_0, drop_ge in Hst by lia.
  rewrite app_nil_l, app_nil_r in Hst.
  rewrite keydowns_app.
  change (keydowns (keydowns w (typed t)) ["Enter"])
    with (keydown (keydowns w (typed t)) "Enter").
  rewrite keydown_enter by done.
  rewrite (submitGuess_win _ ((fun key => Some (toLowerCase key)) <$> typed t)).
  - cbn [world_of stop_listening add_requests listening requests gameState].
    split; [done|]. split; [by rewrite !app_assoc, last_snoc|].
    by rewrite Hst.
  - rewrite Hst. simpl. lia.
  - rewrite Hst. cbn [grid currentRow]. by rewrite list_lookup_insert_eq by lia.
  - by rewrite Hjoin.
  - rewrite Hst, Hjoin. done.
Qed.

Lemma fallback_target_can_be_won_witness :
  let w := keydowns (startGame offline_crane)
             (typed "grape" ++ ["Enter"] ++ typed "xy" ++ ["Backspace"; "Backspace"]) in
  let w' := keydowns w (typed "crane" ++ ["Enter"]) in
  listening w' = false /\
  last (requests w') = Some (Message win_message) /\
  currentRow (gameState w') = currentRow (gameState w).
Proof.
  apply (fallback_target_can_be_won offline_crane
           (typed "grape" ++ ["Enter"] ++ typed "xy" ++ ["Backspace"; "Backspace"])
           "crane"); [reflexivity|reflexivity|reflexivity|].
  apply list_elem_of_In. vm_compute. tauto.
Defined.

(** ** The page: cells, classes and requests *)

Lemma setupGrid_container (container : list Element) : setupGrid container = setupGrid [].
Proof. done. Qed.

Lemma setupGrid_index (row col : nat) :
  row < rows gameConfig -> col < cols gameConfig ->
  indexOf (elem_id <$> setupGrid []) (cellId row col) = Some (row * cols gameConfig + col).
Proof.
  intros Hrow Hcol. simpl in Hrow, Hcol.
  do 6 (destruct row as [|row]; [do 5 (destruct col as [|col]; [reflexivity|]); lia|]).
  lia.
Qed.

Lemma withCell_alter (row col : nat) f (page : list Element) :
  elem_id <$> page = elem_id <$> setupGrid [] ->
  row < rows gameConfig -> col < cols gameConfig ->
  withCell row col f page = alter f (row * cols gameConfig + col) page.
Proof.
  intros Hids Hrow Hcol. unfold withCell, getElementById.
  by rewrite Hids, setupGrid_index.
Qed.

Lemma alter_ids f k (page : list Element) :
  (forall e, elem_id (f e) = elem_id e) ->
  elem_id <$> alter f k page = elem_id <$> page.
Proof.
  intros Hf. apply list_eq. intros i.
  rewrite !list_lookup_fmap, list_lookup_alter.
  case_decide; [subst|done]. destruct (page !! i); simpl; [|done]. by rewrite Hf.
Qed.

Lemma statusClasses_add_other x l :
  x ∉ ["correct"; "misplaced"; "wrong"] ->
  filter (fun y => y ∈ ["correct"; "misplaced"; "wrong"]) (add_class x l)
  = filter (fun y => y ∈ ["correct"; "misplaced"; "wrong"]) l.
Proof.
  intros Hx. unfold add_class. destruct (includes l x); [done|].
  rewrite filter_app, filter_singleton_False by done. apply app_nil_r.
Qed.

Lemma statusClasses_remove_other x l :
  x ∉ ["correct"; "misplaced"; "wrong"] ->
  filter (fun y => y ∈ ["correct"; "misplaced"; "wrong"]) (remove_class x l)
  = filter (fun y => y ∈ ["correct"; "misplaced"; "wrong"]) l.
Proof.
  intros Hx. unfold remove_class. induction l as [|y l IH]; [done|].
  rewrite (filter_cons (fun y => y <> x)). case_decide as Hy.
  - rewrite !filter_cons. case_decide; by rewrite IH.
  - subst. by rewrite filter_cons_False.
Qed.

Lemma statusClasses_removed l :
  filter (fun y => y ∈ ["correct"; "misplaced"; "wrong"])
    (remove_class "wrong" (remove_class "misplaced" (remove_class "correct" l))) = [].
Proof.
  unfold remove_class. induction l as [|y l IH]; [done|].
  rewrite (filter_cons _ y l).
  case_decide as H1; [|done].
  rewrite (filter_cons _ y). case_decide as H2; [|done].
  rewrite (filter_cons _ y). case_decide as H3; [|done].
  rewrite filter_cons_False; [done|].
  intros Hin. repeat (apply elem_of_cons in Hin as [Hin|Hin]; [done|]).
  by apply elem_of_nil in Hin.
Qed.

Lemma statusClasses_reveal st (e : Element) :
  statusClasses (reveal_cell st e) = [statusName st].
Proof.
  unfold statusClasses, reveal_cell, set_classList. cbn [classList].
  pose proof (statusClasses_removed (classList e)) as Hnone.
  set (l := remove_class "wrong" _) in *.
  assert (Hin : statusName st ∈ ["correct"; "misplaced"; "wrong"]).
  { destruct st; simpl; repeat first [apply list_elem_of_here|apply list_elem_of_further]. }
  unfold add_class. destruct (includes l (statusName st)) eqn:Hinc.
  - apply includes_In in Hinc.
    assert (statusName st ∈ filter (fun y => y ∈ ["correct"; "misplaced"; "wrong"]) l)
      by (by apply list_elem_of_filter).
    rewrite Hnone in *. by apply elem_of_nil in H.
  - rewrite filter_app, Hnone, filter_singleton_True by done. done.
Qed.

Ltac not_a_status :=
  let H := fresh in
  intros H; repeat (apply elem_of_cons in H as [H|H]; [discriminate|]);
  by apply elem_of_nil in H.

Lemma statusClasses_updateCell letter (e : Element) :
  statusClasses (updateCell_cell letter e) = statusClasses e.
Proof.
  unfold statusClasses, updateCell_cell. cbn [classList].
  case_bool_decide.
  - apply statusClasses_remove_other. not_a_status.
  - rewrite !statusClasses_add_other by not_a_status.
    apply statusClasses_remove_other. not_a_status.
Qed.

Lemma statusClasses_shake (e : Element) :
  statusClasses (shake_cell e) = statusClasses e.
Proof.
  unfold statusClasses, shake_cell, set_classList. cbn [classList].
  apply statusClasses_add_other. not_a_status.
Qed.

Lemma statusClasses_bounce_ended (e : Element) :
  statusClasses (bounce_ended e) = statusClasses e.
Proof.
  unfold statusClasses, bounce_ended, set_classList. cbn [classList].
  rewrite !statusClasses_remove_other by not_a_status. done.
Qed.

Lemma statusClasses_shake_ended (e : Element) :
  statusClasses (shake_ended e) = statusClasses e.
Proof.
  unfold statusClasses, shake_ended, set_classList. cbn [classList].
  apply statusClasses_remove_other. not_a_status.
Qed.

(** Every cell goes its own way: the requests of a handler change the
    cell at index [k] as [cellStep k] says. *)
Lemma foldl_applyRequest_lookup (qs : list Request) (page : list Element) k e :
  elem_id <$> page = elem_id <$> setupGrid [] ->
  Forall request_in_grid qs ->
  page !! k = Some e ->
  elem_id <$> foldl applyRequest page qs = elem_id <$> setupGrid [] /\
  foldl applyRequest page qs !! k = Some (foldl (cellStep k) e qs).
Proof.
  revert page e. induction qs as [|q qs IH]; intros page e Hids Hqs He; [done|].
  apply Forall_cons in Hqs as [Hq Hqs]. simpl.
  assert (Hstep : elem_id <$> applyRequest page q = elem_id <$> setupGrid [] /\
                  applyRequest page q !! k = Some (cellStep k e q)).
  { destruct q as [row col letter|row col|row col st|text]; simpl in Hq;
      [| | |done]; destruct Hq as [Hrow Hcol]; cbn [applyRequest cellStep];
      rewrite withCell_alter by done;
      (split; [by rewrite alter_ids|]);
      rewrite list_lookup_alter; case_decide; simplify_eq; by rewrite ?He. }
  destruct Hstep as [Hids' He']. by apply IH.
Qed.

Lemma accepted_statuses (guess target : string) :
  isWordValid guess = true ->
  exists statuses : list LetterStatus,
    checkGuess guess target = Some <$> statuses /\ length statuses = cols gameConfig.
Proof.
  intros Hlen%isWordValid_length.
  destruct (checkGuess_inv guess target) as [[_ Hr Hs _ _ _ _ _] _]; [lia|].
  fold (checkGuess guess target) in Hr, Hs.
  destruct (all_statuses (checkGuess guess target)) as (ss & Hss & Hlenss).
  { intros j Hj. apply Hs. lia. }
  exists ss. split; [done|]. by rewrite Hlenss.
Qed.

Lemma foldl_applyRequest_ids (qs : list Request) (page : list Element) :
  elem_id <$> page = elem_id <$> setupGrid [] ->
  Forall request_in_grid qs ->
  elem_id <$> foldl applyRequest page qs = elem_id <$> setupGrid [].
Proof.
  revert page. induction qs as [|q qs IH]; intros page Hids Hqs; [done|].
  apply Forall_cons in Hqs as [Hq Hqs]. simpl. apply IH; [|done].
  destruct q as [row col letter|row col|row col st|text]; simpl in Hq;
    [| | |done]; destruct Hq as [Hrow Hcol]; cbn [applyRequest];
    rewrite withCell_alter by done; by rewrite alter_ids.
Qed.

(** Shakes and messages leave text and status classes alone. *)
Lemma foldl_cellStep_quiet (qs : list Request) k e :
  Forall (fun q => match q with Shake _ _ | Message _ => True | _ => False end) qs ->
  textContent (foldl (cellStep k) e qs) = textContent e /\
  statusClasses (foldl (cellStep k) e qs) = statusClasses e.
Proof.
  revert e. induction qs as [|q qs IH]; intros e Hqs; [done|].
  apply Forall_cons in Hqs as [Hq Hqs]. simpl.
  destruct (IH (cellStep k e q) Hqs) as [-> ->].
  destruct q; try done. simpl. case_decide; [|done].
  split; [done|apply statusClasses_shake].
Qed.

Lemma rowShakes_quiet row :
  Forall (fun q => match q with Shake _ _ | Message _ => True | _ => False end)
    (rowShakes row).
Proof.
  apply Forall_forall. intros q (c & Hq & _)%list_elem_of_bind.
  by apply list_elem_of_singleton in Hq as ->.
Qed.

Lemma missingCellShakes_quiet row r :
  Forall (fun q => match q with Shake _ _ | Message _ => True | _ => False end)
    (missingCellShakes row r).
Proof.
  apply Forall_forall. intros q (c & Hq & _)%list_elem_of_bind.
  destruct (falsy (r !! c)); [|by apply elem_of_nil in Hq].
  by apply list_elem_of_singleton in Hq as ->.
Qed.

(** The requests of [revealAttemptResult] for five statuses put each
    status on its cell of the row and touch nothing else. *)
Lemma foldl_cellStep_reveal row (statuses : list LetterStatus) i j e :
  length statuses = cols gameConfig ->
  j < cols gameConfig ->
  let e' := foldl (cellStep (i * cols gameConfig + j)) e
              (revealRequests row (Some <$> statuses)) in
  textContent e' = textContent e /\
  (i = row -> exists st, statuses !! j = Some st /\ statusClasses e' = [statusName st]) /\
  (i <> row -> statusClasses e' = statusClasses e).
Proof.
  intros Hlen Hj.
  destruct statuses as [|s0 [|s1 [|s2 [|s3 [|s4 [|]]]]]]; try discriminate.
  simpl in Hj. cbn -[Nat.mul Nat.add statusClasses reveal_cell]. split; [|split].
  - repeat case_decide; done.
  - intros ->.
    do 5 (destruct j as [|j];
          [repeat case_decide; try lia;
           eexists; (split; [reflexivity|apply statusClasses_reveal])|]).
    lia.
  - intros Hne. repeat case_decide; try lia. done.
Qed.

Lemma grid_write_lookup (gr : list (list (option string))) row col r x i j :
  gr !! row = Some r ->
  col < length r ->
  <[row := <[col := x]> r]> gr !! i ≫= (.!! j)
  = if decide (i = row /\ j = col) then Some x else gr !! i ≫= (.!! j).
Proof.
  intros Hr Hcol. pose proof (lookup_lt_Some _ _ _ Hr) as Hrow.
  destruct (decide (i = row)) as [->|Hi].
  - rewrite list_lookup_insert_eq by done. simpl. rewrite Hr. simpl.
    destruct (decide (j = col)) as [->|Hj].
    + rewrite list_lookup_insert_eq by done. by rewrite decide_True.
    + rewrite list_lookup_insert_ne by done. by rewrite decide_False by tauto.
  - rewrite list_lookup_insert_ne by done. by rewrite decide_False by tauto.
Qed.

(** The page invariant follows cell by cell. *)
Lemma PageInv_cells (w w' : World) (page : list Element) (new : list Request) :
  PageInv w page ->
  Forall request_in_grid new ->
  (forall i j e,
     i < rows gameConfig -> j < cols gameConfig ->
     page !! (i * cols gameConfig + j) = Some e ->
     let e' := foldl (cellStep (i * cols gameConfig + j)) e new in
     grid (gameState w') !! i ≫= (.!! j) = Some (Some (toLowerCase (textContent e'))) /\
     (revealed w' i ->
        exists r t st,
          grid (gameState w') !! i = Some r /\
          targetWord (gameState w') = Some t /\
          checkGuess (join r) t !! j = Some (Some st) /\
          statusClasses e' = [statusName st]) /\
     (~ revealed w' i -> statusClasses e' = [])) ->
  PageInv w' (foldl applyRequest page new).
Proof.
  intros [Hids Htext Hstatus] Hnew Hcells.
  pose proof (foldl_applyRequest_ids new page Hids Hnew) as Hids'.
  assert (Hback : forall k e', foldl applyRequest page new !! k = Some e' ->
            exists e, page !! k = Some e /\ e' = foldl (cellStep k) e new).
  { intros k e' He'. destruct (lookup_lt_is_Some_2 page k) as [e He].
    - apply lookup_lt_Some in He'.
      apply (f_equal length) in Hids, Hids'. rewrite !length_fmap in *. lia.
    - exists e. split; [done|].
      destruct (foldl_applyRequest_lookup new page k e Hids Hnew He) as [_ Hk].
      congruence. }
  constructor; [done|..]; intros i j e' Hi Hj He';
    destruct (Hback _ _ He') as (e & He & ->);
    destruct (Hcells i j e Hi Hj He) as (H1 & H2 & H3); done.
Qed.

Lemma new_requests_added (w : World) (new : list Request) (w' : World) :
  requests w' = requests w ++ new -> new_requests w w' = new.
Proof. intros H. unfold new_requests. rewrite H. apply drop_app_length. Qed.

(** A step of the session and the requests it makes keep the page in line
    with the session. *)
Lemma PageInv_step (w w' : World) (page : list Element) :
  WorldInv w ->
  listening w = true ->
  KeyStep w w' ->
  PageInv w page ->
  PageInv w' (foldl applyRequest page (new_requests w w')).
Proof.
  intros Hinv Hon Hstep Hpage.
  pose proof (KeyStep_inv _ _ Hinv Hstep) as [_ _ _ _ Hreq'].
  pose proof Hinv as [[Hrows Hcols _ Hcursor _] _ _ _ _].
  pose proof Hpage as [Hids Htext Hstatus].
  assert (Hrev : forall i, revealed w i <-> i < currentRow (gameState w)).
  { intros i. unfold revealed. rewrite Hon. split; [intros [?|[_ ?]]; done|by left]. }
  destruct Hstep as [ | letter r Hletter Hcol Hrow Hr | r Hcol Hr | r Hcol Hr
                    | r Hcol Hr Hvalid | r Hcol Hr Hvalid Htw
                    | r t Hcol Hr Hvalid Htw Hne Hrow
                    | r t Hcol Hr Hvalid Htw Hne Hrow ].
  - (* nothing *)
    unfold new_requests. by rewrite drop_all.
  - (* a letter *)
    pose proof (Forall_lookup_1 _ _ _ _ Hcols Hr) as Hlen. cbv beta in Hlen.
    erewrite new_requests_added in * by (cbn [requests with_state add_requests]; done).
    rewrite array_set_in_range in * by lia.
    apply (PageInv_cells w); [done|..].
    { cbn [requests with_state add_requests] in Hreq'.
      by apply Forall_app in Hreq' as [_ ?]. }
    intros i j e Hi Hj He. cbn [foldl cellStep gameState with_state add_requests grid
                                targetWord].
    rewrite grid_write_lookup by (done || lia).
    pose proof (Htext i j e Hi Hj He) as Ht. destruct (Hstatus i j e Hi Hj He) as [Hs1 Hs2].
    assert (Hrev' : revealed (with_state
              {| targetWord := targetWord (gameState w);
                 currentRow := currentRow (gameState w);
                 currentCol := currentCol (gameState w) + 1;
                 grid := <[currentRow (gameState w) :=
                            <[currentCol (gameState w) := Some (toLowerCase letter)]> r]>
                           (grid (gameState w)) |}
              (add_requests [UpdateCell (currentRow (gameState w))
                               (currentCol (gameState w)) letter] w)) i
            <-> i < currentRow (gameState w)).
    { unfold revealed. cbn [gameState with_state add_requests listening currentRow].
      rewrite Hon. split; [intros [?|[_ ?]]; done|by left]. }
    rewrite Hrev'. rewrite Hrev in Hs1, Hs2.
    split; [|split].
    + case_decide as Hc1; case_decide as Hc2; try done; simpl in *; lia.
    + intros Hlt. destruct (Hs1 Hlt) as (ri & t & st & Hri & Ht' & Hck & Hst).
      exists ri, t, st. rewrite list_lookup_insert_ne by lia.
      repeat (split; [done|]). case_decide; [|done]. by rewrite statusClasses_updateCell.
    + intros Hlt. specialize (Hs2 Hlt).
      case_decide; [|done]. by rewrite statusClasses_updateCell.
  - (* Backspace *)
    pose proof (Forall_lookup_1 _ _ _ _ Hcols Hr) as Hlen. cbv beta in Hlen.
    erewrite new_requests_added in * by (cbn [requests with_state add_requests]; done).
    rewrite array_set_in_range in * by lia.
    apply (PageInv_cells w); [done|..].
    { cbn [requests with_state add_requests] in Hreq'.
      by apply Forall_app in Hreq' as [_ ?]. }
    intros i j e Hi Hj He. cbn [foldl cellStep gameState with_state add_requests grid
                                targetWord].
    rewrite grid_write_lookup by (done || lia).
    pose proof (Htext i j e Hi Hj He) as Ht. destruct (Hstatus i j e Hi Hj He) as [Hs1 Hs2].
    assert (Hrev' : revealed (add_requests
              [UpdateCell (currentRow (gameState w)) (currentCol (gameState w) - 1) ""]
              (with_state
                 {| targetWord := targetWord (gameState w);
                    currentRow := currentRow (gameState w);
                    currentCol := currentCol (gameState w) - 1;
                    grid := <[currentRow (gameState w) :=
                               <[currentCol (gameState w) - 1 := Some ""]> r]>
                              (grid (gameState w)) |} w)) i
            <-> i < currentRow (gameState w)).
    { unfold revealed. cbn [gameState with_state add_requests listening currentRow].
      rewrite Hon. split; [intros [?|[_ ?]]; done|by left]. }
    rewrite Hrev'. rewrite Hrev in Hs1, Hs2.
    split; [|split].
    + case_decide as Hc1; case_decide as Hc2; try done; simpl in *; lia.
    + intros Hlt. destruct (Hs1 Hlt) as (ri & t & st & Hri & Ht' & Hck & Hst).
      exists ri, t, st. rewrite list_lookup_insert_ne by lia.
      repeat (split; [done|]). case_decide; [|done]. by rewrite statusClasses_updateCell.
    + intros Hlt. specialize (Hs2 Hlt).
      case_decide; [|done]. by rewrite statusClasses_updateCell.
  - (* incomplete row *)
    erewrite new_requests_added by (cbn [requests add_requests]; done).
    apply (PageInv_cells w); [done|..].
    { cbn [requests add_requests] in Hreq'. by apply Forall_app in Hreq' as [_ ?]. }
    intros i j e Hi Hj He.
    destruct (foldl_cellStep_quiet _ (i * cols gameConfig + j) e
                (missingCellShakes_quiet (currentRow (gameState w)) r)) as [Ht Hs].
    cbv zeta. rewrite Ht, Hs. split; [by apply Htext|]. by apply Hstatus.
  - (* invalid word *)
    erewrite new_requests_added by (cbn [requests add_requests]; done).
    apply (PageInv_cells w); [done|..].
    { cbn [requests add_requests] in Hreq'. by apply Forall_app in Hreq' as [_ ?]. }
    intros i j e Hi Hj He.
    destruct (foldl_cellStep_quiet
                (rowShakes (currentRow (gameState w)) ++ [Message invalid_message])
                (i * cols gameConfig + j) e) as [Ht Hs].
    { apply Forall_app. split; [apply rowShakes_quiet|by repeat constructor]. }
    cbv zeta. rewrite Ht, Hs. split; [by apply Htext|]. by apply Hstatus.
  - (* won *)
    destruct (accepted_statuses (join r) (join r) Hvalid) as (ss & Hss & Hlenss).
    erewrite new_requests_added by (cbn [requests stop_listening add_requests]; done).
    apply (PageInv_cells w); [done|..].
    { cbn [requests stop_listening add_requests] in Hreq'.
      by apply Forall_app in Hreq' as [_ ?]. }
    intros i j e Hi Hj He. rewrite foldl_app. cbn [foldl cellStep]. rewrite Hss.
    destruct (foldl_cellStep_reveal (currentRow (gameState w)) ss i j e Hlenss Hj)
      as (Ht & Hs1 & Hs2).
    cbv zeta. rewrite Ht. cbn [gameState stop_listening add_requests].
    split; [by apply Htext|].
    destruct (Hstatus i j e Hi Hj He) as [Ho1 Ho2]. rewrite Hrev in Ho1, Ho2.
    unfold revealed. cbn [gameState stop_listening add_requests listening].
    destruct (decide (i = currentRow (gameState w))) as [->|Hi'].
    + split; [|intros H; destruct H; by right].
      intros _. destruct (Hs1 eq_refl) as (st & Hst & Hcl).
      exists r, (join r), st. repeat (split; [done|]).
      split; [|done]. by rewrite Hss, list_lookup_fmap, Hst.
    + rewrite (Hs2 Hi'). split.
      * intros [Hlt|[? _]]; [|done]. by apply Ho1.
      * intros Hnot. apply Ho2. intros Hlt. apply Hnot. by left.
  - (* next attempt *)
    destruct (accepted_statuses (join r) t Hvalid) as (ss & Hss & Hlenss).
    erewrite new_requests_added by (cbn [requests with_state add_requests]; done).
    apply (PageInv_cells w); [done|..].
    { cbn [requests with_state add_requests] in Hreq'.
      by apply Forall_app in Hreq' as [_ ?]. }
    intros i j e Hi Hj He. rewrite Hss.
    destruct (foldl_cellStep_reveal (currentRow (gameState w)) ss i j e Hlenss Hj)
      as (Ht & Hs1 & Hs2).
    cbv zeta. rewrite Ht. cbn [gameState with_state add_requests next_attempt grid targetWord].
    split; [by apply Htext|].
    destruct (Hstatus i j e Hi Hj He) as [Ho1 Ho2]. rewrite Hrev in Ho1, Ho2.
    unfold revealed.
    cbn [gameState with_state add_requests listening next_attempt currentRow].
    rewrite Hon.
    destruct (decide (i = currentRow (gameState w))) as [->|Hi'].
    + split; [|intros H; destruct H; left; lia].
      intros _. destruct (Hs1 eq_refl) as (st & Hst & Hcl).
      exists r, t, st. repeat (split; [done|]).
      split; [|done]. by rewrite Hss, list_lookup_fmap, Hst.
    + rewrite (Hs2 Hi'). split.
      * intros [Hlt|[? ?]]; [|done]. apply Ho1. lia.
      * intros Hnot. apply Ho2. intros Hlt. apply Hnot. left. lia.
  - (* lost *)
    destruct (accepted_statuses (join r) t Hvalid) as (ss & Hss & Hlenss).
    erewrite new_requests_added
      by (cbn [requests stop_listening with_state add_requests]; done).
    apply (PageInv_cells w); [done|..].
    { cbn [requests stop_listening with_state add_requests] in Hreq'.
      by apply Forall_app in Hreq' as [_ ?]. }
    intros i j e Hi Hj He. rewrite foldl_app. cbn [foldl cellStep]. rewrite Hss.
    destruct (foldl_cellStep_reveal (currentRow (gameState w)) ss i j e Hlenss Hj)
      as (Ht & Hs1 & Hs2).
    cbv zeta. rewrite Ht.
    cbn [gameState stop_listening with_state add_requests next_attempt grid targetWord].
    split; [by apply Htext|].
    destruct (Hstatus i j e Hi Hj He) as [Ho1 Ho2]. rewrite Hrev in Ho1, Ho2.
    unfold revealed.
    cbn [gameState stop_listening with_state add_requests listening next_attempt currentRow].
    destruct (decide (i = currentRow (gameState w))) as [->|Hi'].
    + split; [|intros H; destruct H; left; lia].
      intros _. destruct (Hs1 eq_refl) as (st & Hst & Hcl).
      exists r, t, st. repeat (split; [done|]).
      split; [|done]. by rewrite Hss, list_lookup_fmap, Hst.
    + rewrite (Hs2 Hi'). split.
      * intros [Hlt|[? _]]; [apply Ho1|apply Ho1]; lia.
      * intros Hnot. apply Ho2. intros Hlt. apply Hnot. left. lia.
Qed.

Lemma setupGrid_fresh :
  Forall (fun e => textContent e = "" /\ statusClasses e = []) (setupGrid []).
Proof. repeat (constructor; [by split|]). constructor. Qed.

Lemma PageInv_start (env : Env) (container : list Element) :
  PageInv (startGame env) (setupGrid container).
Proof.
  rewrite setupGrid_container, startGame_eq. constructor.
  - done.
  - intros i j e Hi Hj He. cbn [gameState grid].
    destruct (Forall_lookup_1 _ _ _ _ setupGrid_fresh He) as [-> _].
    rewrite lookup_replicate_2 by done. unfold mbind, option_bind.
    by rewrite lookup_replicate_2.
  - intros i j e Hi Hj He.
    destruct (Forall_lookup_1 _ _ _ _ setupGrid_fresh He) as [_ Hnone].
    split; [|done]. unfold revealed. cbn [gameState currentRow listening].
    intros [?|[_ ?]]; [lia|done].
Qed.

(** An [animationend] listener changes neither what a cell shows nor its
    status. *)
Lemma PageInv_alter (w : World) (page : list Element) f k :
  (forall e, elem_id (f e) = elem_id e) ->
  (forall e, textContent (f e) = textContent e) ->
  (forall e, statusClasses (f e) = statusClasses e) ->
  PageInv w page -> PageInv w (alter f k page).
Proof.
  intros Hid Htxt Hst [Hids Htext Hstatus]. constructor.
  - by rewrite alter_ids.
  - intros i j e' Hi Hj He'. rewrite list_lookup_alter in He'.
    case_decide; [subst|by apply Htext].
    destruct (page !! _) as [e|] eqn:He; simplify_eq/=. rewrite Htxt. by apply Htext.
  - intros i j e' Hi Hj He'. rewrite list_lookup_alter in He'.
    case_decide; [subst|by apply Hstatus].
    destruct (page !! _) as [e|] eqn:He; simplify_eq/=. rewrite Hst. by apply Hstatus.
Qed.

Lemma Shown_inv (w : World) (page : list Element) :
  Shown w page -> WorldInv w /\ PageInv w page.
Proof.
  induction 1 as [env container|w page key _ [Hw Hp]|w page k _ [Hw Hp]|w page k _ [Hw Hp]].
  - split; [apply startGame_inv|apply PageInv_start].
  - split; [apply (KeyStep_inv w); [done|by apply keydown_step]|].
    destruct (listening w) eqn:Hon.
    + apply PageInv_step; [done|done|by apply keydown_step|done].
    + unfold keydown. rewrite Hon. unfold new_requests. by rewrite drop_all.
  - split; [done|]. apply PageInv_alter; [done|done|apply statusClasses_bounce_ended|done].
  - split; [done|]. apply PageInv_alter; [done|done|apply statusClasses_shake_ended|done].
Qed.

(** ** The page: what the player sees *)

(** X19: every request a session ever makes names a cell that [setupGrid]
    built, whatever the container held before: [getElementById] finds the
    cell, and finds it at the position the request means. *)
Theorem requests_find_their_cells (env : Env) (keys : list string) (container : list Element) :
  Forall (fun q =>
            match q with
            | UpdateCell row col _ | Shake row col | RevealCell row col _ =>
                row < rows gameConfig /\ col < cols gameConfig /\
                getElementById (cellId row col) (setupGrid container)
                = Some (row * cols gameConfig + col)
            | Message _ => True
            end)
         (requests (keydowns (startGame env) keys)).
Proof.
  destruct (reachable_inv env keys) as [_ _ _ _ Hreq].
  eapply Forall_impl; [exact Hreq|].
  intros [row col letter|row col|row col st|text]; simpl; [| | |done];
    intros [Hrow Hcol]; (split; [done|]); (split; [done|]);
    apply (setupGrid_index row col); simpl; lia.
Qed.

(** X20: at every moment of a session, between two keydown events, each
    cell of the page shows the letter of its slot of the grid: the text of
    the cell, in lowercase, is the slot (both empty for a free slot). *)
Theorem page_shows_letters (w : World) (page : list Element) (i j : nat) :
  Shown w page ->
  i < rows gameConfig ->
  j < cols gameConfig ->
  exists e,
    getElementById (cellId i j) page = Some (i * cols gameConfig + j) /\
    page !! (i * cols gameConfig + j) = Some e /\
    grid (gameState w) !! i ≫= (.!! j) = Some (Some (toLowerCase (textContent e))).
Proof.
  intros [_ [Hids Htext _]]%Shown_inv Hi Hj.
  destruct (lookup_lt_is_Some_2 page (i * cols gameConfig + j)) as [e He].
  { apply (f_equal length) in Hids. rewrite !length_fmap in Hids. rewrite Hids.
    simpl in *. lia. }
  exists e. split; [|split; [done|by apply Htext]].
  unfold getElementById. rewrite Hids. by apply setupGrid_index.
Qed.

Lemma page_shows_letters_witness :
  let w0 := startGame offline_crane in
  let w := keydown w0 "G" in
  let page := foldl applyRequest (setupGrid []) (new_requests w0 w) in
  exists e,
    getElementById (cellId 0 0) page = Some 0 /\
    page !! 0 = Some e /\
    grid (gameState w) !! 0 ≫= (.!! 0) = Some (Some (toLowerCase (textContent e))).
Proof.
  intros w0 w page.
  apply (page_shows_letters w page 0 0); [|simpl; lia|simpl; lia].
  apply shown_keydown, shown_start.
Defined.

(** X21: at every moment of a session a cell bears a status class exactly
    when its row was submitted and accepted, and then it bears one status
    class only: the status [checkGuess] gives its position for the word of
    its row against the target. *)
Theorem page_shows_statuses (w : World) (page : list Element) (i j : nat) e :
  Shown w page ->
  i < rows gameConfig ->
  j < cols gameConfig ->
  page !! (i * cols gameConfig + j) = Some e ->
  (revealed w i ->
     exists r t st,
       grid (gameState w) !! i = Some r /\
       targetWord (gameState w) = Some t /\
       checkGuess (join r) t !! j = Some (Some st) /\
       statusClasses e = [statusName st]) /\
  (~ revealed w i -> statusClasses e = []).
Proof.
  intros [_ [_ _ Hstatus]]%Shown_inv Hi Hj He. by apply Hstatus.
Qed.

Lemma Shown_play (w : World) (page : list Element) (keys : list string) :
  Shown w page -> Shown (play w page keys).1 (play w page keys).2.
Proof.
  revert w page. induction keys as [|key keys IH]; intros w page Hshown; [done|].
  simpl. apply IH. by apply shown_keydown.
Qed.

Lemma page_shows_statuses_witness :
  let played := play (startGame offline_crane) (setupGrid [])
                  (typed "grape" ++ ["Enter"]) in
  exists e,
    played.2 !! 2 = Some e /\
    textContent e = "a" /\
    exists r t st,
      grid (gameState played.1) !! 0 = Some r /\
      targetWord (gameState played.1) = Some t /\
      checkGuess (join r) t !! 2 = Some (Some st) /\
      statusClasses e = [statusName st].
Proof.
  intros played. eexists. split; [vm_compute; reflexivity|].
  split; [reflexivity|].
  apply (page_shows_statuses played.1 played.2 0 2).
  - apply Shown_play, shown_start.
  - vm_compute. lia.
  - vm_compute. lia.
  - vm_compute. reflexivity.
  - left. vm_compute. lia.
Defined.

(** ** The theme toggle *)

(** X22: after any number of clicks on the theme toggle the body is in
    light mode exactly when the number of clicks is odd or even as the
    starting mode requires, so two clicks restore the mode; and after at
    least one click the icon of the button tells the mode. *)
Theorem toggle_clicks (p : Theme) (n : nat) :
  let p' := Nat.iter n toggleClicked p in
  lightMode p' = (if Nat.odd n then negb (lightMode p) else lightMode p) /\
  (0 < n -> toggleText p' = if lightMode p' then "🌙" else "🌞").
Proof.
  cbv zeta. split.
  - induction n as [|n IH]; [done|].
    rewrite Nat.iter_succ. cbn [toggleClicked lightMode].
    rewrite IH, Nat.odd_succ, <- Nat.negb_odd.
    by destruct (Nat.odd n), (lightMode p).
  - destruct n as [|n]; [lia|]. intros _. rewrite Nat.iter_succ. done.
Qed.

Lemma toggle_clicks_witness :
  let p' := Nat.iter 3 toggleClicked {| lightMode := false; toggleText := "🌞" |} in
  lightMode p' = true /\ toggleText p' = "🌙".
Proof.
  intros p'. split; [reflexivity|].
  apply (proj2 (toggle_clicks {| lightMode := false; toggleText := "🌞" |} 3)). lia.
Defined.

(** ** The session: the signal of an incomplete row *)

Lemma list_bind_nil_all {A B} (f : A -> list B) (l : list A) :
  Forall (fun x => f x = []) l -> l ≫= f = [].
Proof. induction 1 as [|x l Hx _ IH]; [done|]. csimpl. by rewrite Hx, IH. Qed.

Lemma list_bind_singletons {A B} (f : A -> list B) (g : A -> B) (l : list A) :
  Forall (fun x => f x = [g x]) l -> l ≫= f = g <$> l.
Proof. induction 1 as [|x l Hx _ IH]; [done|]. csimpl. by rewrite Hx, IH. Qed.

Lemma missingCellShakes_from_cursor row col (r : list (option string)) :
  length r = cols gameConfig ->
  col <= cols gameConfig ->
  (forall j s, r !! j = Some s ->
     (j < col -> letter_slot s) /\ (~ j < col -> s = Some "")) ->
  missingCellShakes row r = Shake row <$> seq col (cols gameConfig - col).
Proof.
  intros Hlen Hcol Hlayout. unfold missingCellShakes.
  replace (cols gameConfig) with (col + (cols gameConfig - col)) at 1 by lia.
  rewrite seq_app, bind_app.
  rewrite (list_bind_nil_all _ (seq 0 col)), app_nil_l.
  - apply list_bind_singletons. apply Forall_forall. intros c [Hc1 Hc2]%elem_of_seq.
    destruct (lookup_lt_is_Some_2 r c) as [s Hs]; [lia|].
    destruct (Hlayout c s Hs) as [_ He]. rewrite Hs, He by lia. done.
  - apply Forall_forall. intros c [Hc1 Hc2]%elem_of_seq.
    destruct (lookup_lt_is_Some_2 r c) as [s Hs]; [lia|].
    destruct (Hlayout c s Hs) as [Hl _]. destruct Hl as (ch & _ & ->); [lia|].
    by rewrite Hs.
Qed.

(** X23: in a world a session reaches, with the listener registered and
    the current row incomplete, Enter changes no state and asks the page to
    shake exactly the cells of the current row from the cursor to the end
    of the row: the letters that are missing. *)
Theorem incomplete_row_shakes_missing_cells (env : Env) (keys : list string) :
  let w := keydowns (startGame env) keys in
  let g := gameState w in
  listening w = true ->
  currentCol g < cols gameConfig ->
  keydown w "Enter" =
  add_requests (Shake (currentRow g) <$> seq (currentCol g) (cols gameConfig - currentCol g)) w.
Proof.
  intros w g Hon Hcol. subst g.
  pose proof (reachable_inv env keys) as Hinv. fold w in Hinv.
  pose proof Hinv as [Hs _ Hfill Halive _]. specialize (Halive Hon).
  destruct (SessionInv_row _ Hs Halive) as (r & Hr & Hlen & _).
  rewrite keydown_enter by done. rewrite (submitGuess_incomplete w r) by done.
  cbn [world_of]. f_equal. apply missingCellShakes_from_cursor; [done|lia|].
  intros j s Hj. destruct (Hfill _ _ _ _ Hr Hj) as [Hf He].
  unfold filled in *. split; intros ?; [apply Hf|apply He]; lia.
Qed.

Lemma incomplete_row_shakes_missing_cells_witness :
  let w := keydowns (startGame offline_crane) (typed "cra") in
  keydown w "Enter" = add_requests [Shake 0 3; Shake 0 4] w.
Proof.
  apply (incomplete_row_shakes_missing_cells offline_crane (typed "cra"));
    [reflexivity|vm_compute; lia].
Defined.
